(** * Beam-search decoder of [lmp/model.py] ([BaseModel.generator])

    A shallow embedding of the decoding routine and of the top-k buffer it
    uses, followed by the properties of the decoder.

    Numbers.  The routine works on tensors of floating-point numbers.  A
    float is embedded as the real number ([R]) it stands for, so that the
    comparisons of the code are comparisons of reals.  The one arithmetic
    expression of the routine, [-torch.log(p) + s] (line 140), is computed
    in the floating-point type of the tensors of the network: its value for
    [p > 0] is a parameter ([neg_log_add], which comes with the network in
    [Model]), and the properties that depend on it say what they use of
    it; at [p = 0] it is [+inf] (and not a number below), which is never
    [<] anything.  [torch.log] accepts tensors only: on the Python int [0]
    of a sentinel of the buffer it raises [TypeError].  [beam_width] and
    [max_len] are Python integers ([Z]), token ids and lengths are
    naturals. *)

From Stdlib Require Import String Ascii.
From Stdlib Require Import List ZArith Lia Reals Lra Bool Sorted.
Import ListNotations.

Set Implicit Arguments.

(** ** Python list primitives *)

Section PyList.
Context {A : Type}.

(** [l[-1]]: [None] stands for the [IndexError] of an empty list. *)
Fixpoint py_last (l : list A) : option A :=
  match l with
  | [] => None
  | [x] => Some x
  | _ :: l' => py_last l'
  end.

(** [l[i] = x] for an index in range; the decoder never writes out of
    range (see [find_level_lt]), where this leaves the list as it is. *)
Fixpoint set_item (l : list A) (i : nat) (x : A) : list A :=
  match l, i with
  | [], _ => []
  | _ :: l', O => x :: l'
  | y :: l', S i' => y :: set_item l' i' x
  end.
End PyList.

(** ** External collaborators *)

(** Modelled from the spec: the tokenizer class is not part of the sources
    at hand; it is the interface of section 6 of the specification:
    [encode] is [convert_sentences_to_ids] on one sentence, [decode] is
    [convert_ids_to_sentences] on one sequence. *)
Record Tokenizer : Type := {
  encode : string -> list nat;
  decode : list nat -> string;
  eos_token_id : nat;
  pad_token_id : nat;
  vocab_size : nat
}.

Definition convert_sentences_to_ids (tokenizer : Tokenizer)
    (sentences : list string) : list (list nat) :=
  map (encode tokenizer) sentences.

Definition convert_ids_to_sentences (tokenizer : Tokenizer)
    (all_ids : list (list nat)) : list string :=
  map (decode tokenizer) all_ids.

(** The network, with the tensors it computes on.  [predict] is the
    network followed by the softmax of line 107:
    [model batch_x beam_id pos vocab_id] is
    [softmax(self(batch_x)[beam_id][pos], dim=0)[vocab_id]].
    [neg_log_add model p s] is the value of [-torch.log(p) + s] (line 140)
    for an element [p > 0] of such a tensor, in the floating-point type of
    the network. *)
Record Model : Type := {
  predict :> list (list nat) -> nat -> nat -> nat -> R;
  neg_log_add : R -> R -> R
}.

(** The arithmetic of the real numbers, without rounding. *)
Definition exact_neg_log_add (p s : R) : R := (- ln p + s)%R.

(** [torch.nn.utils.rnn.pad_sequence(batch, batch_first=True, padding_value)] *)
Definition pad_sequence (padding_value : nat) (batch : list (list nat))
    : list (list nat) :=
  let width := fold_right Nat.max 0 (map (@length nat) batch) in
  map (fun ids => ids ++ repeat padding_value (width - length ids)) batch.

(** ** Comparison of floats *)

Definition Rltb (x y : R) : bool := if Rlt_dec x y then true else false.

(** ** The top-k buffer (lines 109-129) *)

(** [is_tensor] tells the values read from the tensor of probabilities
    (line 127) from the Python int of a sentinel (line 111). *)
Record entry : Type := { vocab_id : nat; value : R; is_tensor : bool }.

(** Default of the reads by index; every read of the decoder is in range
    (see [find_level_lt] and [select_is_defined]). *)
Definition no_entry : entry :=
  {| vocab_id := 0; value := 0; is_tensor := false |}.

(** Lines 118-121: [for level in range(beam_width)], leaving at the first
    level whose value exceeds [p] with [level -= 1].  [level] is the value
    the loop variable has when the loop is left.  The loop is not left at
    level 0, which the guard of line 115 has excluded (see
    [scan_leaves_above_0]), so that [l - 1] is never below 0. *)
Fixpoint scan_level (p : R) (buf : list entry) (levels : list nat)
    (level : nat) : nat :=
  match levels with
  | [] => level
  | l :: rest =>
      if Rltb p (value (nth l buf no_entry)) then l - 1
      else scan_level p buf rest l
  end.

(** [level] is unbound before the loop; the loop runs at least once, as a
    pass takes place only when [beam_width >= 1]. *)
Definition find_level (beam_width : nat) (p : R) (buf : list entry) : nat :=
  scan_level p buf (seq 0 beam_width) 0.

(** Lines 123-124: [for tmp in range(level): buf[tmp] = buf[tmp + 1]]. *)
Definition shift_down (buf : list entry) (level : nat) : list entry :=
  fold_left (fun b tmp => set_item b tmp (nth (tmp + 1) b no_entry))
            (seq 0 level) buf.

(** Lines 115-127: one vocabulary id offered to the buffer. *)
Definition offer (beam_width : nat) (buf : list entry) (v : nat) (p : R)
    : list entry :=
  if Rltb p (value (nth 0 buf no_entry)) then buf
  else
    let level := find_level beam_width p buf in
    set_item (shift_down buf level) level
             {| vocab_id := v; value := p; is_tensor := true |}.

(** Lines 109-112. *)
Definition sentinels (beam_width eos : nat) : list entry :=
  repeat {| vocab_id := eos; value := 0; is_tensor := false |} beam_width.

(** Lines 109-127: the buffer after the ids of [range(n)] were offered. *)
Definition top_k (beam_width eos n : nat) (pred : nat -> R) : list entry :=
  fold_left (fun buf v => offer beam_width buf v (pred v))
            (seq 0 n) (sentinels beam_width eos).

(** ** Global selection (lines 132-152) *)

Record choice : Type := { beam_id : nat; c_vocab_id : nat; c_value : R }.

Definition big : R := 999999999.

Inductive error : Type := ValueError | IndexError | TypeError.

(** [-torch.log(p) + s] for a tensor element [p]; [None] is the infinite
    (or undefined) value of [p <= 0], for which [value < min_value] is
    false. *)
Definition neg_log_plus (model : Model) (p s : R) : option R :=
  if Rlt_dec 0 p then Some (neg_log_add model p s) else None.

(** Lines 140-144, one beam; [top_value[beam_id][-1]] is read on a
    non-empty buffer (see [select_is_defined]).  When it is a sentinel,
    [torch.log] is applied to a Python int and raises [TypeError]. *)
Definition scan_beam (model : Model) (top_value : list (list entry))
    (active_ids_prob : list R) (best : choice) (b : nat) : error + choice :=
  let top := last (nth b top_value []) no_entry in
  if is_tensor top then
    inr match neg_log_plus model (value top) (nth b active_ids_prob 0%R) with
        | Some v =>
            if Rltb v (c_value best)
            then {| beam_id := b; c_vocab_id := vocab_id top; c_value := v |}
            else best
        | None => best
        end
  else inl TypeError.

(** Lines 139-144: the loop over the beams, left at the first error. *)
Fixpoint scan_from (model : Model) (top_value : list (list entry))
    (active_ids_prob : list R) (beams : list nat) (best : choice)
    : error + choice :=
  match beams with
  | [] => inr best
  | b :: rest =>
      match scan_beam model top_value active_ids_prob best b with
      | inl e => inl e
      | inr best' => scan_from model top_value active_ids_prob rest best'
      end
  end.

(** Lines 135-144. *)
Definition scan_beams (model : Model) (eos : nat)
    (top_value : list (list entry)) (active_ids_prob : list R)
    : error + choice :=
  scan_from model top_value active_ids_prob (seq 0 (length top_value))
            {| beam_id := 0; c_vocab_id := eos; c_value := big |}.

(** Line 152: [top_value[b].pop()]. *)
Definition pop_at (top_value : list (list entry)) (b : nat)
    : list (list entry) :=
  set_item top_value b (removelast (nth b top_value [])).

(** Lines 134-152: [n] rounds of selection; the choices made, and the
    error that ended the rounds if there was one. *)
Fixpoint select (model : Model) (n eos : nat)
    (top_value : list (list entry)) (active_ids_prob : list R)
    : list choice * option error :=
  match n with
  | O => ([], None)
  | S n' =>
      match scan_beams model eos top_value active_ids_prob with
      | inl e => ([], Some e)
      | inr c =>
          let rest :=
            select model n' eos (pop_at top_value (beam_id c))
                   active_ids_prob in
          (c :: fst rest, snd rest)
      end
  end.

(** ** The decoding loop (lines 80-159) *)

Inductive outcome (A : Type) : Type :=
| Returned (a : A)
| Raised (e : error)
| OutOfFuel.
Arguments Raised {A} e.
Arguments OutOfFuel {A}.

(** What one pass through the loop body computed, and the error that
    ended it if there was one.  The loop keeps a log of the passes that
    called the network, which the properties below speak about; the log
    has no influence on the result. *)
Record iteration : Type := {
  it_active_ids : list (list nat);
  it_active_ids_prob : list R;
  it_batch_x : list (list nat);
  it_top_value : list (list entry);
  it_final_top_value : list choice;
  it_raised : option error
}.

Section Decoder.
Variable tokenizer : Tokenizer.
Variable model : Model.
Variables beam_width max_len : Z.

Local Abbreviation eos := (eos_token_id tokenizer).

(** Lines 85-90 on the candidates [all_ids[i], all_ids_prob[i]], which the
    loop passes as pairs: the two lists have the same length in every pass
    (see [shape]). *)
Fixpoint partition (cands : list (list nat * R))
    (active_ids : list (list nat)) (active_ids_prob : list R)
    (generate_result : list (list nat))
    : error + (list (list nat) * list R * list (list nat)) :=
  match cands with
  | [] => inr (active_ids, active_ids_prob, generate_result)
  | (ids, prob) :: rest =>
      match py_last ids with
      | None => inl IndexError
      | Some t =>
          if negb (t =? eos) && (Z.of_nat (length ids) <? max_len)%Z
          then partition rest (active_ids ++ [ids])
                         (active_ids_prob ++ [prob]) generate_result
          else if (Z.of_nat (length generate_result) <? beam_width)%Z
          then partition rest active_ids active_ids_prob
                         (generate_result ++ [ids])
          else partition rest active_ids active_ids_prob generate_result
      end
  end.

(** Lines 104-129. *)
Definition top_values (active_ids batch_x : list (list nat))
    : list (list entry) :=
  map (fun b =>
         top_k (Z.to_nat beam_width) eos (vocab_size tokenizer)
               (model batch_x b (length (nth b active_ids []) - 1)))
      (seq 0 (length active_ids)).

(** Lines 155-159. *)
Definition expand (active_ids : list (list nat)) (obj : choice)
    : list nat :=
  nth (beam_id obj) active_ids [] ++ [c_vocab_id obj].

(** Lines 96-152 for one set of active candidates. *)
Definition iterate (active_ids : list (list nat))
    (active_ids_prob : list R) : iteration :=
  let batch_x := pad_sequence (pad_token_id tokenizer) active_ids in
  let top_value := top_values active_ids batch_x in
  let selection :=
    select model (Z.to_nat beam_width) eos top_value active_ids_prob in
  {| it_active_ids := active_ids;
     it_active_ids_prob := active_ids_prob;
     it_batch_x := batch_x;
     it_top_value := top_value;
     it_final_top_value := fst selection;
     it_raised := snd selection |}.

(** Lines 80-159; [log] collects the passes that called the network. *)
Fixpoint generate_loop (fuel : nat) (all_ids : list (list nat))
    (all_ids_prob : list R) (generate_result : list (list nat))
    (log : list iteration)
    : list iteration * outcome (list (list nat)) :=
  match fuel with
  | O => (log, OutOfFuel)
  | S fuel' =>
      match partition (combine all_ids all_ids_prob) [] []
                      generate_result with
      | inl e => (log, Raised e)
      | inr (active_ids, active_ids_prob, generate_result') =>
          if match active_ids with [] => true | _ => false end
             || (beam_width <=? Z.of_nat (length generate_result'))%Z
          then (log, Returned generate_result')
          else
            let it := iterate active_ids active_ids_prob in
            match it_raised it with
            | Some e => (log ++ [it], Raised e)
            | None =>
                generate_loop fuel'
                  (map (expand active_ids) (it_final_top_value it))
                  (map c_value (it_final_top_value it))
                  generate_result' (log ++ [it])
            end
      end
  end.

(** Lines 161-163 for one sequence. *)
Definition strip_eos (ids : list nat) : error + list nat :=
  match py_last ids with
  | None => inl IndexError
  | Some t => if t =? eos then inr (removelast ids) else inr ids
  end.

Fixpoint strip_all (generate_result : list (list nat))
    : error + list (list nat) :=
  match generate_result with
  | [] => inr []
  | ids :: rest =>
      match strip_eos ids with
      | inl e => inl e
      | inr ids' =>
          match strip_all rest with
          | inl e => inl e
          | inr rest' => inr (ids' :: rest')
          end
      end
  end.

(** Lines 74-159: the sequences collected for a seed, before stripping. *)
Definition beam_search (fuel : nat) (begin_of_sentence : string)
    : list iteration * outcome (list (list nat)) :=
  generate_loop fuel
    (convert_sentences_to_ids tokenizer [begin_of_sentence])
    [0%R] [] [].

(** [generator], with the number of passes of [while True] bounded by
    [fuel]. *)
Definition generator_fuel (fuel : nat) (begin_of_sentence : option string)
    : list iteration * outcome (list string) :=
  match begin_of_sentence with
  | None => ([], Raised ValueError)
  | Some s =>
      if String.length s =? 0 then ([], Raised ValueError)
      else
        match beam_search fuel s with
        | (log, Returned generate_result) =>
            match strip_all generate_result with
            | inl e => (log, Raised e)
            | inr stripped =>
                (log, Returned (convert_ids_to_sentences tokenizer stripped))
            end
        | (log, Raised e) => (log, Raised e)
        | (log, OutOfFuel) => (log, OutOfFuel)
        end
  end.

(** [generator]: [max_len + 1] passes are never exhausted
    (see [generator_fuel_enough]). *)
Definition generator (begin_of_sentence : option string)
    : list iteration * outcome (list string) :=
  generator_fuel (S (Z.to_nat max_len)) begin_of_sentence.

End Decoder.

(** ** Specification-side definitions *)

(** The buffer is kept in ascending order of probability. *)
Definition le_value (a b : entry) : Prop := (value a <= value b)%R.

Definition ascending (buf : list entry) : Prop := StronglySorted le_value buf.

(** Order of retention: by probability; among equal probabilities the
    sentinels first, then the ids in the order in which they were
    offered. *)
Definition le_tie (a b : entry) : Prop :=
  (value a < value b)%R \/
  (value a = value b /\
   (is_tensor a = false \/
    (is_tensor b = true /\ vocab_id a <= vocab_id b))).

(** Insertion of an entry behind every entry whose value is not above its
    own; [offer] is this insertion followed by the eviction of the head
    (see [offer_ins]). *)
Fixpoint ins (e : entry) (buf : list entry) : list entry :=
  match buf with
  | [] => [e]
  | x :: buf' =>
      if Rltb (value e) (value x) then e :: x :: buf' else x :: ins e buf'
  end.

(** Index of the first entry whose value is above [p]. *)
Fixpoint first_gt (p : R) (buf : list entry) : nat :=
  match buf with
  | [] => 0
  | x :: buf' => if Rltb p (value x) then 0 else S (first_gt p buf')
  end.

(** The reads and the [pop] of lines 140-152 are on non-empty buffers of
    an existing beam in each of the rounds that are made (an empty one
    would raise [IndexError]). *)
Fixpoint select_defined (model : Model) (n eos : nat)
    (top_value : list (list entry)) (active_ids_prob : list R) : Prop :=
  match n with
  | O => True
  | S n' =>
      top_value <> [] /\ Forall (fun buf => buf <> []) top_value /\
      match scan_beams model eos top_value active_ids_prob with
      | inl _ => True
      | inr c =>
          select_defined model n' eos (pop_at top_value (beam_id c))
                         active_ids_prob
      end
  end.

(** A candidate that goes on being decoded (line 86). *)
Definition active_cond (tokenizer : Tokenizer) (max_len : Z)
    (ids : list nat) : Prop :=
  exists t, py_last ids = Some t /\ t <> eos_token_id tokenizer /\
            (Z.of_nat (length ids) < max_len)%Z.

(** The choice of a selection round in which no option was below the
    initial minimum (lines 135-137). *)
Definition fallback (eos : nat) : choice :=
  {| beam_id := 0; c_vocab_id := eos; c_value := big |}.

(** The choice of an option [e] of the buffer of beam [beam_id c]. *)
Definition chosen_from (model : Model) (top_value : list (list entry))
    (active_ids_prob : list R) (c : choice) : Prop :=
  beam_id c < length top_value /\
  exists e, In e (nth (beam_id c) top_value []) /\
            is_tensor e = true /\
            (0 < value e)%R /\
            c_vocab_id c = vocab_id e /\
            c_value c =
              neg_log_add model (value e)
                          (nth (beam_id c) active_ids_prob 0%R).

(** A pass that called the network: at most [beam_width] active
    candidates, each shorter than [max_len]. *)
Definition pass_shape (beam_width max_len : Z) (it : iteration) : Prop :=
  length (it_active_ids it) <= Z.to_nat beam_width /\
  Forall (fun ids => (Z.of_nat (length ids) < max_len)%Z) (it_active_ids it).

(** State of the loop after [length log] passes on a seed of [L0] tokens:
    the candidates have one token per pass more than the seed, there are at
    most [beam_width] of them (one at the start), and what was collected is
    non-empty and no longer than the seed or [max_len]. *)
Definition shape (beam_width max_len : Z) (L0 : nat)
    (all_ids : list (list nat)) (all_ids_prob : list R)
    (generate_result : list (list nat)) (log : list iteration) : Prop :=
  1 <= L0 /\
  Forall (fun ids => length ids = L0 + length log) all_ids /\
  length all_ids = length all_ids_prob /\
  all_ids <> [] /\
  length all_ids <= Nat.max 1 (Z.to_nat beam_width) /\
  (log = [] \/ (Z.of_nat (L0 + length log) <= max_len)%Z) /\
  Forall (fun ids => ids <> [] /\
            (Z.of_nat (length ids) <= Z.max max_len (Z.of_nat L0))%Z)
         generate_result /\
  Forall (pass_shape beam_width max_len) log.

Definition result_shape (beam_width max_len : Z) (L0 : nat)
    (log : list iteration) (generate_result : list (list nat)) : Prop :=
  Forall (fun ids => ids <> [] /\
            (Z.of_nat (length ids) <= Z.max max_len (Z.of_nat L0))%Z)
         generate_result /\
  ((1 <= beam_width)%Z -> generate_result <> []) /\
  (log = [] \/ (Z.of_nat (L0 + length log) <= max_len)%Z) /\
  Forall (pass_shape beam_width max_len) log.

(** Number of ids offered to top-k buffers in the logged passes: every
    active candidate of a pass is offered each id of [range(vocab_size)]
    (lines 105 and 114). *)
Definition offers (tokenizer : Tokenizer) (log : list iteration) : nat :=
  list_sum (map (fun it => length (it_active_ids it) * vocab_size tokenizer)
                log).

(** A sequence that does not end with two end-of-sequence tokens. *)
Definition single_eos (tokenizer : Tokenizer) (ids : list nat) : Prop :=
  ~ (py_last ids = Some (eos_token_id tokenizer) /\
     py_last (removelast ids) = Some (eos_token_id tokenizer)).

(** What post-processing does to one sequence. *)
Definition stripped_of (tokenizer : Tokenizer) (ids stripped : list nat)
    : Prop :=
  (py_last ids = Some (eos_token_id tokenizer) /\
   ids = stripped ++ [eos_token_id tokenizer]) \/
  (py_last ids <> Some (eos_token_id tokenizer) /\ stripped = ids).

(** The scores of one pass: every new candidate scores at least as much as
    the candidate it extends, which scores at least 0; it is the fallback of
    a round without option, or extends its parent by an id of the parent's
    buffer, of probability [p] in (0,1], and its score is the value of
    [-log p + parent score] (line 140). *)
Definition scores_grow (tokenizer : Tokenizer) (model : Model)
    (it : iteration) : Prop :=
  forall c, In c (it_final_top_value it) ->
    let parent_score := nth (beam_id c) (it_active_ids_prob it) 0%R in
    (0 <= parent_score)%R /\ (parent_score <= c_value c)%R /\
    (c = fallback (eos_token_id tokenizer) \/
     exists e, In e (nth (beam_id c) (it_top_value it) []) /\
               (0 < value e <= 1)%R /\
               c_vocab_id c = vocab_id e /\
               c_value c = neg_log_add model (value e) parent_score).

(** Lineage: the active candidates of a pass, with their scores, are
    candidates that the pass before made, with the scores it gave them. *)
Definition carried (it1 it2 : iteration) : Prop :=
  forall ids s,
    In (ids, s) (combine (it_active_ids it2) (it_active_ids_prob it2)) ->
    exists c, In c (it_final_top_value it1) /\
              ids = expand (it_active_ids it1) c /\ s = c_value c.

Fixpoint chained (log : list iteration) : Prop :=
  match log with
  | it1 :: ((it2 :: _) as rest) => carried it1 it2 /\ chained rest
  | _ => True
  end.


(** The probabilities of the network are not negative, as the values of a
    softmax are. *)
Definition non_negative (tokenizer : Tokenizer) (model : Model) : Prop :=
  forall batch_x b pos u,
    u < vocab_size tokenizer -> (0 <= model batch_x b pos u)%R.



(** A candidate that is not decoded further (line 86 fails). *)
Definition complete (tokenizer : Tokenizer) (max_len : Z) (ids : list nat)
    : Prop :=
  py_last ids = Some (eos_token_id tokenizer) \/
  (ids <> [] /\ (max_len <= Z.of_nat (length ids))%Z).



(** ** A small tokenizer and networks to run the decoder on

    Vocabulary of four ids: padding 0, end of sequence 1 (written [$]),
    [a] 2 and [b] 3. *)

Definition char_id (c : Ascii.ascii) : nat :=
  if Ascii.eqb c "a"%char then 2
  else if Ascii.eqb c "b"%char then 3
  else if Ascii.eqb c "$"%char then 1
  else 0.

Definition id_char (i : nat) : Ascii.ascii :=
  match i with
  | 2 => "a"
  | 3 => "b"
  | 1 => "$"
  | _ => " "
  end%char.

Definition char_tokenizer : Tokenizer :=
  {| encode := fun s => map char_id (list_ascii_of_string s);
     decode := fun ids => string_of_list_ascii (map id_char ids);
     eos_token_id := 1;
     pad_token_id := 0;
     vocab_size := 4 |}.


(** Every id equally likely, whatever the input. *)
Definition uniform_model : Model :=
  {| predict := fun _ _ _ _ => (1 / 4)%R;
     neg_log_add := exact_neg_log_add |}.

(** [b] with probability 1/2, [a] and the end of sequence with 1/4. *)
Definition skewed_model : Model :=
  {| predict := fun _ _ _ v =>
       match v with
       | 0 => 0
       | 1 => 1 / 4
       | 2 => 1 / 4
       | _ => 1 / 2
       end%R;
     neg_log_add := exact_neg_log_add |}.

(** The scenario of the specification: [a] is certain while the sequence
    has fewer than three tokens, the end of sequence afterwards. *)
Definition scenario_model : Model :=
  {| predict := fun _ _ pos v =>
       if pos <? 2 then (if v =? 2 then 1 else 0)%R
       else (if v =? 1 then 1 else 0)%R;
     neg_log_add := exact_neg_log_add |}.

(** ** Definitions for the further properties *)

(** Combined score of the best option left in the buffer of beam [b]
    (line 140); [None] when it is infinite. *)
Definition option_value (model : Model) (top_value : list (list entry))
    (active_ids_prob : list R) (b : nat) : option R :=
  neg_log_plus model (value (last (nth b top_value []) no_entry))
               (nth b active_ids_prob 0%R).

(** [c] is the least option of the beams below [k], the first of them
    among equal scores, or the fallback when no option is below
    999999999. *)
Definition least_option (model : Model) (eos : nat)
    (top_value : list (list entry)) (active_ids_prob : list R) (k : nat)
    (c : choice) : Prop :=
  (forall b v, b < k ->
               option_value model top_value active_ids_prob b = Some v ->
               (c_value c <= v)%R) /\
  (c_value c <= big)%R /\
  (c = fallback eos \/
   (beam_id c < k /\
    option_value model top_value active_ids_prob (beam_id c)
    = Some (c_value c) /\
    c_vocab_id c
    = vocab_id (last (nth (beam_id c) top_value []) no_entry) /\
    (c_value c < big)%R /\
    forall b v, b < beam_id c ->
                option_value model top_value active_ids_prob b = Some v ->
                (c_value c < v)%R)).

(** The buffers as the first [i] rounds of selection leave them
    (line 152). *)
Fixpoint popped (model : Model) (i eos : nat)
    (top_value : list (list entry)) (active_ids_prob : list R)
    : list (list entry) :=
  match i with
  | O => top_value
  | S i' =>
      match scan_beams model eos top_value active_ids_prob with
      | inl _ => top_value
      | inr c =>
          popped model i' eos (pop_at top_value (beam_id c)) active_ids_prob
      end
  end.

(** The arithmetic of line 140 is monotone: a higher probability does not
    give a higher score.  It holds of every rounding of [-log p + s] that
    is monotone. *)
Definition antitone (model : Model) : Prop :=
  forall p q s, (0 < p <= q)%R ->
    (neg_log_add model q s <= neg_log_add model p s)%R.

(** The arithmetic of line 140 does not give less than its second operand
    when the probability is 1 or less, as [-log p] is not negative then. *)
Definition growing (model : Model) : Prop :=
  forall p s, (0 < p <= 1)%R -> (s <= neg_log_add model p s)%R.

(** A sequence that continues the seed with ids of the vocabulary or the
    end-of-sequence id. *)
Definition continues (tokenizer : Tokenizer) (seed ids : list nat) : Prop :=
  exists suffix,
    ids = seed ++ suffix /\
    Forall (fun t => t < vocab_size tokenizer \/ t = eos_token_id tokenizer)
           suffix.

(** ** Python list primitives: lemmas *)

Lemma py_last_app (A : Type) (l : list A) (x : A) :
  py_last (l ++ [x]) = Some x.
Proof.
  induction l as [|y l IH]; simpl; auto.
  rewrite IH. destruct (l ++ [x]) eqn:E; auto.
  destruct l; discriminate.
Qed.

Lemma py_last_none (A : Type) (l : list A) : py_last l = None <-> l = [].
Proof.
  split; intros H; [|subst; reflexivity].
  induction l as [|y l IH]; auto.
  simpl in H. destruct l; [discriminate|]. specialize (IH H). discriminate.
Qed.

Lemma py_last_some (A : Type) (l : list A) (x : A) :
  py_last l = Some x -> l = removelast l ++ [x].
Proof.
  induction l as [|y l IH]; [discriminate|].
  intros H. destruct l as [|z l].
  - simpl in H. injection H as ->. reflexivity.
  - change (py_last (z :: l) = Some x) in H.
    change (y :: z :: l = y :: (removelast (z :: l) ++ [x])).
    f_equal. auto.
Qed.


Lemma length_set_item (A : Type) (l : list A) (i : nat) (x : A) :
  length (set_item l i x) = length l.
Proof.
  revert i; induction l as [|y l IH]; intros [|i]; simpl; auto.
Qed.

(** ** The top-k buffer: lemmas *)

Lemma Rltb_true (x y : R) : Rltb x y = true <-> (x < y)%R.
Proof. unfold Rltb. destruct (Rlt_dec x y); split; auto; discriminate. Qed.

Lemma Rltb_false (x y : R) : Rltb x y = false <-> (y <= x)%R.
Proof.
  unfold Rltb. destruct (Rlt_dec x y); split; auto; try discriminate; lra.
Qed.

(** Decides the comparisons of a run on concrete numbers. *)
Ltac decide_Rltb :=
  repeat match goal with
  | |- context [Rltb ?a ?b] =>
      let H := fresh in
      destruct (Rltb a b) eqn:H;
      [apply Rltb_true in H | apply Rltb_false in H];
      try (exfalso; simpl in *; lra)
  end.

Lemma scan_level_first_gt (p : R) (rest : list entry) :
  forall (pre : list entry) (level : nat),
    scan_level p (pre ++ rest) (seq (length pre) (length rest)) level =
    match rest with
    | [] => level
    | _ => length pre + first_gt p rest - 1
    end.
Proof.
  induction rest as [|x rest IH]; intros pre level; [reflexivity|].
  simpl. rewrite nth_middle.
  destruct (Rltb p (value x)); [lia|].
  replace (pre ++ x :: rest) with ((pre ++ [x]) ++ rest)
    by (rewrite <- app_assoc; reflexivity).
  replace (S (length pre)) with (length (pre ++ [x]))
    by (rewrite length_app; simpl; lia).
  rewrite IH. rewrite length_app; simpl.
  destruct rest; [simpl; lia | lia].
Qed.

Lemma find_level_first_gt (p : R) (buf : list entry) :
  find_level (length buf) p buf = first_gt p buf - 1.
Proof.
  unfold find_level.
  change (scan_level p ([] ++ buf) (seq (length (@nil entry)) (length buf)) 0
          = first_gt p buf - 1).
  rewrite scan_level_first_gt. destruct buf; simpl; lia.
Qed.

Lemma first_gt_le (p : R) (buf : list entry) : first_gt p buf <= length buf.
Proof.
  induction buf as [|x buf IH]; simpl; [lia|].
  destruct (Rltb p (value x)); lia.
Qed.

(** [level] stays inside the buffer: no write of lines 124-126 is out of
    range. *)
Lemma find_level_lt (p : R) (buf : list entry) :
  buf <> [] -> find_level (length buf) p buf < length buf.
Proof.
  intros H. rewrite find_level_first_gt.
  pose proof (first_gt_le p buf). destruct buf; [congruence|simpl in *; lia].
Qed.

Lemma shift_fold_cons (a : entry) :
  forall (k s : nat) (t : list entry),
    fold_left (fun b tmp => set_item b tmp (nth (tmp + 1) b no_entry))
              (seq (S s) k) (a :: t) =
    a :: fold_left (fun b tmp => set_item b tmp (nth (tmp + 1) b no_entry))
                   (seq s k) t.
Proof.
  induction k as [|k IH]; intros s t; [reflexivity|].
  simpl. destruct t as [|y t].
  - simpl. rewrite (IH (S s) []). reflexivity.
  - rewrite <- IH. reflexivity.
Qed.

Lemma shift_down_cons (x y : entry) (l : list entry) (k : nat) :
  shift_down (x :: y :: l) (S k) = y :: shift_down (y :: l) k.
Proof.
  unfold shift_down. simpl. apply shift_fold_cons.
Qed.

Lemma shift_insert (e : entry) (l : list entry) :
  forall x : entry,
    set_item (shift_down (x :: l) (first_gt (value e) l))
             (first_gt (value e) l) e = ins e l.
Proof.
  induction l as [|y l IH]; intros x; [reflexivity|].
  simpl. destruct (Rltb (value e) (value y)) eqn:E; [reflexivity|].
  rewrite shift_down_cons. simpl. f_equal. apply IH.
Qed.

(** Lines 115-127 insert the offered entry behind the entries that are not
    above it and drop the head. *)
Lemma offer_ins (buf : list entry) (v : nat) (p : R) :
  offer (length buf) buf v p
  = tl (ins {| vocab_id := v; value := p; is_tensor := true |} buf).
Proof.
  unfold offer. destruct buf as [|x buf].
  - simpl. destruct (Rltb p 0); reflexivity.
  - simpl nth. simpl ins.
    destruct (Rltb p (value x)) eqn:E; [reflexivity|].
    rewrite find_level_first_gt. simpl first_gt. rewrite E.
    replace (S (first_gt p buf) - 1) with (first_gt p buf) by lia.
    apply (shift_insert {| vocab_id := v; value := p; is_tensor := true |}).
Qed.

Lemma length_ins (e : entry) (buf : list entry) :
  length (ins e buf) = S (length buf).
Proof.
  induction buf as [|x buf IH]; simpl; auto.
  destruct (Rltb (value e) (value x)); simpl; auto.
Qed.

Lemma in_ins (e a : entry) (buf : list entry) :
  In a (ins e buf) <-> a = e \/ In a buf.
Proof.
  induction buf as [|x buf IH]; simpl.
  - intuition auto.
  - destruct (Rltb (value e) (value x)); simpl; rewrite ?IH; intuition auto.
Qed.

Lemma ascending_ins (e : entry) (buf : list entry) :
  ascending buf -> ascending (ins e buf).
Proof.
  unfold ascending.
  induction buf as [|x buf IH]; intros H; simpl.
  - constructor; constructor.
  - inversion H as [|? ? Hs Hf]; subst.
    destruct (Rltb (value e) (value x)) eqn:E.
    + apply Rltb_true in E. constructor; auto.
      constructor; [unfold le_value; lra|].
      eapply Forall_impl; [|exact Hf]. unfold le_value. intros; lra.
    + apply Rltb_false in E. constructor; auto.
      apply Forall_forall. intros a Ha. apply in_ins in Ha.
      destruct Ha as [->|Ha]; [exact E|].
      rewrite Forall_forall in Hf. auto.
Qed.

Lemma ascending_tl (buf : list entry) : ascending buf -> ascending (tl buf).
Proof.
  unfold ascending. intros H. destruct buf; simpl; auto.
  inversion H; auto.
Qed.

Lemma length_offer (buf : list entry) (v : nat) (p : R) :
  length (offer (length buf) buf v p) = length buf.
Proof.
  rewrite offer_ins.
  pose proof (length_ins {| vocab_id := v; value := p; is_tensor := true |}
                         buf) as H.
  destruct (ins _ buf); simpl in *; lia.
Qed.

Lemma ascending_offer (buf : list entry) (v : nat) (p : R) :
  ascending buf -> ascending (offer (length buf) buf v p).
Proof.
  intros H. rewrite offer_ins. apply ascending_tl, ascending_ins, H.
Qed.

Lemma offer_below_min (buf : list entry) (v : nat) (p : R) :
  (p < value (nth 0 buf no_entry))%R -> offer (length buf) buf v p = buf.
Proof.
  intros H. unfold offer. apply Rltb_true in H. rewrite H. reflexivity.
Qed.

Lemma ascending_sentinels (beam_width eos : nat) :
  ascending (sentinels beam_width eos).
Proof.
  unfold ascending, sentinels.
  induction beam_width as [|n IH]; simpl; constructor; auto.
  apply Forall_forall. intros a Ha. apply repeat_spec in Ha. subst.
  unfold le_value; simpl; lra.
Qed.

Lemma top_k_succ (beam_width eos n : nat) (pred : nat -> R) :
  top_k beam_width eos (S n) pred =
  offer beam_width (top_k beam_width eos n pred) n (pred n).
Proof.
  unfold top_k. rewrite seq_S, fold_left_app. reflexivity.
Qed.

Lemma length_top_k (beam_width eos n : nat) (pred : nat -> R) :
  length (top_k beam_width eos n pred) = beam_width.
Proof.
  induction n as [|n IH].
  - apply repeat_length.
  - rewrite top_k_succ. rewrite <- IH at 1. rewrite length_offer. exact IH.
Qed.

Lemma top_k_step (beam_width eos n : nat) (pred : nat -> R) :
  top_k beam_width eos (S n) pred =
  tl (ins {| vocab_id := n; value := pred n; is_tensor := true |}
          (top_k beam_width eos n pred)).
Proof.
  rewrite top_k_succ. rewrite <- offer_ins. rewrite length_top_k. reflexivity.
Qed.

Lemma ascending_top_k (beam_width eos n : nat) (pred : nat -> R) :
  ascending (top_k beam_width eos n pred).
Proof.
  induction n as [|n IH].
  - apply ascending_sentinels.
  - rewrite top_k_step. apply ascending_tl, ascending_ins, IH.
Qed.

(** Every entry of a buffer is a sentinel or an offered id with its
    probability. *)
Lemma in_top_k (beam_width eos n : nat) (pred : nat -> R) (e : entry) :
  In e (top_k beam_width eos n pred) ->
  e = {| vocab_id := eos; value := 0; is_tensor := false |} \/
  (vocab_id e < n /\ value e = pred (vocab_id e) /\ is_tensor e = true).
Proof.
  induction n as [|n IH].
  - intros H. apply repeat_spec in H. auto.
  - rewrite top_k_step. intros H.
    assert (H' : In e (ins {| vocab_id := n; value := pred n;
                              is_tensor := true |}
                           (top_k beam_width eos n pred))).
    { destruct (ins _ _); simpl in *; auto. }
    apply in_ins in H'. destruct H' as [->|H'].
    + right. simpl. auto.
    + destruct (IH H') as [|(? & ? & ?)]; auto.
Qed.

(** *** Ties *)

Lemma tie_sorted_ins (e : entry) (buf : list entry) :
  StronglySorted le_tie buf ->
  (forall a, In a buf -> value a = value e ->
     is_tensor a = false \/
     (is_tensor e = true /\ vocab_id a <= vocab_id e)) ->
  StronglySorted le_tie (ins e buf).
Proof.
  induction buf as [|x buf IH]; intros H Hid; simpl.
  - constructor; constructor.
  - inversion H as [|? ? Hs Hf]; subst.
    destruct (Rltb (value e) (value x)) eqn:E.
    + apply Rltb_true in E. constructor; auto.
      constructor; [left; exact E|].
      eapply Forall_impl; [|exact Hf].
      intros a [Ha|[Ha _]]; left; lra.
    + apply Rltb_false in E. constructor.
      * apply IH; auto. intros a Ha. apply Hid. right; exact Ha.
      * apply Forall_forall. intros a Ha. apply in_ins in Ha.
        destruct Ha as [->|Ha].
        -- destruct (Rle_lt_or_eq_dec _ _ E) as [Hlt|Heq]; [left; exact Hlt|].
           right. split; [exact Heq|]. apply Hid; [left; reflexivity|exact Heq].
        -- rewrite Forall_forall in Hf. auto.
Qed.

Lemma tie_sorted_ins_top_k (beam_width eos n : nat) (pred : nat -> R) :
  StronglySorted le_tie (top_k beam_width eos n pred) ->
  StronglySorted le_tie
    (ins {| vocab_id := n; value := pred n; is_tensor := true |}
         (top_k beam_width eos n pred)).
Proof.
  intros Hs. apply tie_sorted_ins; [exact Hs|].
  simpl. intros a Ha Hv. apply in_top_k in Ha.
  destruct Ha as [->|(Ha & _)]; [left; reflexivity|].
  right. split; [reflexivity|lia].
Qed.

Lemma tie_sorted_top_k (beam_width eos n : nat) (pred : nat -> R) :
  StronglySorted le_tie (top_k beam_width eos n pred).
Proof.
  induction n as [|n IH].
  - unfold top_k, sentinels. simpl.
    induction beam_width as [|k IHk]; simpl; constructor; auto.
    apply Forall_forall. intros a Ha. apply repeat_spec in Ha. subst.
    right. simpl. split; [reflexivity|]. left. reflexivity.
  - rewrite top_k_step.
    assert (Hs := @tie_sorted_ins_top_k beam_width eos n pred IH).
    destruct (ins _ _); simpl; [constructor|].
    inversion Hs; auto.
Qed.

(** Of two ids of equal probability, the higher is in the buffer whenever
    the lower is. *)
Lemma top_k_ties (beam_width eos n : nat) (pred : nat -> R) :
  forall i j, i < j -> j < n -> pred i = pred j ->
    In {| vocab_id := i; value := pred i; is_tensor := true |}
       (top_k beam_width eos n pred) ->
    In {| vocab_id := j; value := pred j; is_tensor := true |}
       (top_k beam_width eos n pred).
Proof.
  induction n as [|n IH]; intros i j Hij Hjn Heq Hi; [lia|].
  pose proof (@tie_sorted_ins_top_k beam_width eos n pred
                (tie_sorted_top_k beam_width eos n pred)) as Hsorted.
  rewrite top_k_step in *.
  set (L := ins {| vocab_id := n; value := pred n; is_tensor := true |}
                (top_k beam_width eos n pred)) in *.
  assert (HiL : In {| vocab_id := i; value := pred i; is_tensor := true |} L)
    by (destruct L; simpl in *; auto).
  assert (HjL : In {| vocab_id := j; value := pred j; is_tensor := true |} L).
  { unfold L. apply in_ins.
    destruct (Nat.eq_dec j n) as [->|Hne]; [left; reflexivity|right].
    apply (IH i j); auto; try lia.
    unfold L in HiL. apply in_ins in HiL. destruct HiL as [HiL|HiL]; auto.
    injection HiL as HiL _. lia. }
  destruct L as [|h t]; [contradiction|]. simpl in *.
  destruct HjL as [->|HjL]; [|exact HjL].
  exfalso. inversion Hsorted as [|? ? _ Hf]; subst.
  rewrite Forall_forall in Hf. specialize (Hf _ Hi).
  destruct Hf as [Hf|[_ [Hf|[_ Hf]]]]; simpl in Hf;
    [lra|discriminate|lia].
Qed.

(** *** Sentinels and offered ids *)

Lemma ins_sentinels (e s : entry) (k : nat) (R0 : list entry) :
  (value s <= value e)%R ->
  ins e (repeat s k ++ R0) = repeat s k ++ ins e R0.
Proof.
  intros H. induction k as [|k IH]; [reflexivity|].
  simpl. apply Rltb_false in H. rewrite H, IH. reflexivity.
Qed.

Lemma NoDup_ids_ins (e : entry) (R0 : list entry) :
  NoDup (map vocab_id R0) -> ~ In (vocab_id e) (map vocab_id R0) ->
  NoDup (map vocab_id (ins e R0)).
Proof.
  induction R0 as [|x R0 IH]; intros Hnd Hnew; simpl.
  - constructor; [intros []|constructor].
  - destruct (Rltb (value e) (value x)); simpl.
    + constructor; assumption.
    + inversion Hnd as [|? ? Hx Hnd']; subst. constructor.
      * intros Hin. apply in_map_iff in Hin. destruct Hin as (a & Ha & Hin).
        apply in_ins in Hin. destruct Hin as [->|Hin].
        -- apply Hnew. left. symmetry. exact Ha.
        -- apply Hx. rewrite <- Ha. apply in_map, Hin.
      * apply IH; [exact Hnd'|]. intros Hin. apply Hnew. right. exact Hin.
Qed.

(** With non-negative probabilities the buffer is made of the sentinels
    that are left, in front, and of offered ids, each once, with their
    probabilities: an offered id takes the place of a sentinel as long as
    there is one. *)
Lemma top_k_structure (beam_width eos : nat) (P : nat -> R) (n : nat) :
  (forall u, u < n -> (0 <= P u)%R) ->
  exists R0,
    top_k beam_width eos n P
    = repeat {| vocab_id := eos; value := 0; is_tensor := false |}
             (beam_width - n) ++ R0 /\
    length R0 = Nat.min n beam_width /\
    Forall (fun e => vocab_id e < n /\ value e = P (vocab_id e) /\
                     is_tensor e = true) R0 /\
    NoDup (map vocab_id R0).
Proof.
  induction n as [|n IH]; intros Hpos.
  - exists []. rewrite Nat.sub_0_r, app_nil_r. simpl.
    repeat split; auto; constructor.
  - destruct IH as (R0 & Hbuf & Hlen & Hreal & Hnd);
      [intros; apply Hpos; lia|].
    rewrite top_k_step, Hbuf.
    assert (Hn : (0 <= P n)%R) by (apply Hpos; lia).
    rewrite ins_sentinels by (simpl; exact Hn).
    assert (Hfresh : ~ In n (map vocab_id R0)).
    { intros Hin. apply in_map_iff in Hin. destruct Hin as (a & Ha & Hin).
      rewrite Forall_forall in Hreal. destruct (Hreal a Hin). lia. }
    assert (Hreal' : Forall (fun e => vocab_id e < S n /\
                                        value e = P (vocab_id e) /\
                                        is_tensor e = true)
                            (ins {| vocab_id := n; value := P n;
                                    is_tensor := true |} R0)).
    { apply Forall_forall. intros a Ha. apply in_ins in Ha.
      destruct Ha as [->|Ha]; [simpl; auto|].
      rewrite Forall_forall in Hreal. destruct (Hreal a Ha) as (? & ? & ?).
      auto. }
    pose proof (@NoDup_ids_ins
                  {| vocab_id := n; value := P n; is_tensor := true |} R0
                  Hnd Hfresh) as Hnd'.
    pose proof (length_ins
                  {| vocab_id := n; value := P n; is_tensor := true |} R0)
      as Hl'.
    destruct (beam_width - n) as [|k] eqn:Ek.
    + exists (tl (ins {| vocab_id := n; value := P n; is_tensor := true |} R0)).
      replace (beam_width - S n) with 0 by lia. cbn [repeat app].
      destruct (ins _ R0) as [|h t]; cbn [tl length map] in *; [lia|].
      split; [reflexivity|]. split; [lia|].
      inversion Hreal'; inversion Hnd'; subst. auto.
    + exists (ins {| vocab_id := n; value := P n; is_tensor := true |} R0).
      replace (beam_width - S n) with k by lia. cbn [repeat app tl].
      split; [reflexivity|]. split; [lia|]. auto.
Qed.

(** ** Partition of the candidates (lines 85-90) *)

Section PartitionFacts.
Variable tokenizer : Tokenizer.
Variables beam_width max_len : Z.

Lemma partition_total (cands : list (list nat * R)) :
  Forall (fun c => fst c <> []) cands ->
  forall active_ids active_ids_prob generate_result,
  exists r,
    partition tokenizer beam_width max_len cands active_ids active_ids_prob
              generate_result = inr r.
Proof.
  induction 1 as [|[ids s] cands Hne _ IH]; intros a ap g; simpl.
  - eauto.
  - destruct (py_last ids) eqn:E.
    + destruct (_ && _); [|destruct (_ <? _)%Z]; apply IH.
    + apply py_last_none in E. simpl in Hne. congruence.
Qed.

Lemma partition_error (cands : list (list nat * R)) :
  forall active_ids active_ids_prob generate_result e,
    partition tokenizer beam_width max_len cands active_ids active_ids_prob
              generate_result = inl e ->
    e = IndexError /\ Exists (fun c => fst c = []) cands.
Proof.
  induction cands as [|[ids s] cands IH]; intros a ap g e; simpl.
  - discriminate.
  - destruct (py_last ids) eqn:E.
    + intros H.
      assert (H' : e = IndexError /\ Exists (fun c => fst c = []) cands).
      { destruct (_ && _); [|destruct (_ <? _)%Z]; eapply IH; eauto. }
      destruct H'; auto.
    + intros H. injection H as <-. apply py_last_none in E.
      split; [reflexivity|]. left. exact E.
Qed.

Lemma partition_spec (cands : list (list nat * R)) :
  forall active_ids active_ids_prob generate_result a' ap' g',
    partition tokenizer beam_width max_len cands active_ids active_ids_prob
              generate_result = inr (a', ap', g') ->
    exists a_new ap_new g_new,
      a' = active_ids ++ a_new /\ ap' = active_ids_prob ++ ap_new /\
      g' = generate_result ++ g_new /\
      length a_new = length ap_new /\
      length a_new <= length cands /\
      (forall ids s, In (ids, s) (combine a_new ap_new) ->
         In (ids, s) cands /\ active_cond tokenizer max_len ids) /\
      (forall ids, In ids g_new -> In ids (map fst cands)) /\
      (Z.of_nat (length generate_result) <= Z.max beam_width 0 ->
       Z.of_nat (length g') <= Z.max beam_width 0)%Z /\
      (cands <> [] -> (1 <= beam_width)%Z -> a_new = [] -> g' <> []).
Proof.
  induction cands as [|[ids s] cands IH]; intros a ap g a' ap' g'; simpl.
  - intros H. injection H as <- <- <-.
    exists [], [], []. rewrite !app_nil_r. simpl.
    repeat split; auto; try contradiction; try congruence.
  - destruct (py_last ids) as [t|] eqn:E; [|discriminate].
    destruct (negb (t =? eos_token_id tokenizer)
              && (Z.of_nat (length ids) <? max_len)%Z) eqn:C;
      [|destruct (Z.of_nat (length g) <? beam_width)%Z eqn:G];
      intros H; apply IH in H;
      destruct H
        as (an & apn & gn & -> & -> & -> & Hl & Hle & Ha & Hg & Hb & _).
    + exists (ids :: an), (s :: apn), gn.
      rewrite <- !app_assoc. simpl.
      split; [reflexivity|]. split; [reflexivity|]. split; [reflexivity|].
      split; [lia|]. split; [lia|].
      split.
      { intros ids' s' [H|H].
        - injection H as <- <-. split; [left; reflexivity|]. exists t.
          apply andb_prop in C. destruct C as [C1 C2].
          apply negb_true_iff, Nat.eqb_neq in C1. apply Z.ltb_lt in C2. auto.
        - destruct (Ha _ _ H). split; [right|]; auto. }
      split; [intros ids' H; right; apply Hg, H|].
      split; [exact Hb|]. intros _ _ Hn. discriminate.
    + exists an, apn, (ids :: gn).
      rewrite <- !app_assoc. simpl.
      split; [reflexivity|]. split; [reflexivity|]. split; [reflexivity|].
      split; [lia|]. split; [lia|].
      split; [intros ids' s' H; destruct (Ha _ _ H); split; [right|]; auto|].
      split; [intros ids' [<-|H]; auto|].
      split.
      { intros Hg0. rewrite <- app_assoc in Hb. simpl in Hb. apply Hb.
        apply Z.ltb_lt in G. rewrite length_app. simpl. lia. }
      intros _ _ _. destruct g; discriminate.
    + exists an, apn, gn.
      split; [reflexivity|]. split; [reflexivity|]. split; [reflexivity|].
      split; [lia|]. split; [lia|].
      split; [intros ids' s' H; destruct (Ha _ _ H); split; [right|]; auto|].
      split; [intros ids' H; right; apply Hg, H|].
      split; [exact Hb|].
      intros _ Hbw _. apply Z.ltb_ge in G.
      destruct g; [simpl in G; lia|discriminate].
Qed.

End PartitionFacts.

(** ** Global selection (lines 132-152): lemmas *)

Lemma nth_set_item (A : Type) (l : list A) (i j : nat) (x d : A) :
  nth j (set_item l i x) d =
  if (j =? i) && (i <? length l) then x else nth j l d.
Proof.
  revert i j; induction l as [|y l IH]; intros [|i] [|j]; simpl; auto.
  rewrite andb_false_r. reflexivity.
Qed.

Lemma in_removelast (A : Type) (l : list A) (x : A) :
  In x (removelast l) -> In x l.
Proof.
  induction l as [|y l IH]; simpl; auto.
  destruct l; simpl in *; [contradiction|]. intuition auto.
Qed.

Lemma last_in (A : Type) (l : list A) (d : A) : l <> [] -> In (last l d) l.
Proof.
  induction l as [|y l IH]; [congruence|]. intros _.
  destruct l; [left; reflexivity|]. right. apply IH. discriminate.
Qed.

Lemma length_pop_at (top_value : list (list entry)) (b : nat) :
  length (pop_at top_value b) = length top_value.
Proof. apply length_set_item. Qed.

Lemma in_pop_at (top_value : list (list entry)) (b b' : nat) (e : entry) :
  In e (nth b' (pop_at top_value b) []) -> In e (nth b' top_value []).
Proof.
  unfold pop_at. rewrite nth_set_item.
  destruct ((b' =? b) && (b <? length top_value)) eqn:E; auto.
  apply andb_prop in E. destruct E as [E _]. apply Nat.eqb_eq in E. subst.
  apply in_removelast.
Qed.

Lemma neg_log_plus_some (model : Model) (p s v : R) :
  neg_log_plus model p s = Some v ->
  (0 < p)%R /\ v = neg_log_add model p s.
Proof.
  unfold neg_log_plus. destruct (Rlt_dec 0 p); [|discriminate].
  intros H. injection H as <-. auto.
Qed.

(** A beam whose best entry is read without error: the entry is a tensor
    element, and the beam takes over when its score is below the best so
    far. *)
Lemma scan_beam_inr (model : Model) (top_value : list (list entry))
    (active_ids_prob : list R) (best : choice) (b : nat) (c : choice) :
  scan_beam model top_value active_ids_prob best b = inr c ->
  is_tensor (last (nth b top_value []) no_entry) = true /\
  c = match option_value model top_value active_ids_prob b with
      | Some v =>
          if Rltb v (c_value best)
          then {| beam_id := b;
                  c_vocab_id := vocab_id (last (nth b top_value []) no_entry);
                  c_value := v |}
          else best
      | None => best
      end.
Proof.
  unfold scan_beam, option_value.
  destruct (is_tensor (last (nth b top_value []) no_entry));
    [|discriminate].
  intros H. injection H as <-. auto.
Qed.


Lemma scan_beam_error (model : Model) (top_value : list (list entry))
    (active_ids_prob : list R) (best : choice) (b : nat) (e : error) :
  scan_beam model top_value active_ids_prob best b = inl e ->
  e = TypeError /\ is_tensor (last (nth b top_value []) no_entry) = false.
Proof.
  unfold scan_beam.
  destruct (is_tensor (last (nth b top_value []) no_entry));
    [discriminate|].
  intros H. injection H as <-. auto.
Qed.

Lemma scan_from_app (model : Model) (top_value : list (list entry))
    (active_ids_prob : list R) (l1 l2 : list nat) :
  forall best,
    scan_from model top_value active_ids_prob (l1 ++ l2) best
    = match scan_from model top_value active_ids_prob l1 best with
      | inl e => inl e
      | inr c => scan_from model top_value active_ids_prob l2 c
      end.
Proof.
  induction l1 as [|b l1 IH]; intros best; simpl; [reflexivity|].
  destruct (scan_beam _ _ _ _ _); [reflexivity|apply IH].
Qed.

(** The scan of a round raises nothing but [TypeError], and raises it when
    the best entry left in a buffer is a sentinel. *)
Lemma scan_from_error (model : Model) (top_value : list (list entry))
    (active_ids_prob : list R) (beams : list nat) :
  forall best e,
    scan_from model top_value active_ids_prob beams best = inl e ->
    e = TypeError /\
    exists b, In b beams /\
              is_tensor (last (nth b top_value []) no_entry) = false.
Proof.
  induction beams as [|b beams IH]; intros best e; simpl; [discriminate|].
  destruct (scan_beam _ _ _ _ _) as [e'|c] eqn:E.
  - intros H. injection H as <-. apply scan_beam_error in E.
    destruct E as [-> E]. split; [reflexivity|]. exists b. auto.
  - intros H. apply IH in H. destruct H as [-> (b' & Hb & Ht)].
    split; [reflexivity|]. exists b'. auto.
Qed.


Section SelectFacts.
Variable model : Model.
Variable eos : nat.
Variable top_value : list (list entry).
Variable active_ids_prob : list R.

(** What a selection round can yield. *)
Let good (c : choice) : Prop :=
  c = fallback eos \/
  (chosen_from model top_value active_ids_prob c /\ (c_value c < big)%R).

Lemma scan_beam_good (best : choice) (b : nat) (c : choice) :
  b < length top_value -> good best ->
  scan_beam model top_value active_ids_prob best b = inr c -> good c.
Proof.
  intros Hb Hbest Hc. apply scan_beam_inr in Hc. destruct Hc as [Ht ->].
  unfold option_value.
  destruct (neg_log_plus _ _ _) as [v|] eqn:E; [|exact Hbest].
  destruct (Rltb v (c_value best)) eqn:C; [|exact Hbest].
  apply neg_log_plus_some in E. destruct E as [Hpos Hv].
  apply Rltb_true in C. right. split.
  - split; [exact Hb|]. simpl.
    exists (last (nth b top_value []) no_entry).
    repeat split; auto.
    apply last_in. intros Hnil. rewrite Hnil in Hpos. simpl in Hpos. lra.
  - simpl. destruct Hbest as [->|[_ Hlt]]; simpl in *; lra.
Qed.

Lemma scan_from_good (bs : list nat) :
  forall best c, (forall b, In b bs -> b < length top_value) -> good best ->
    scan_from model top_value active_ids_prob bs best = inr c -> good c.
Proof.
  induction bs as [|b bs IH]; intros best c Hbs Hbest; simpl.
  - intros H. injection H as <-. exact Hbest.
  - destruct (scan_beam _ _ _ _ _) as [e|best'] eqn:E; [discriminate|].
    apply IH; [intros; apply Hbs; right; auto|].
    eapply scan_beam_good; eauto. apply Hbs. left; reflexivity.
Qed.

Lemma scan_beams_good (c : choice) :
  scan_beams model eos top_value active_ids_prob = inr c -> good c.
Proof.
  unfold scan_beams. apply scan_from_good.
  - intros b Hb. apply in_seq in Hb. lia.
  - left. reflexivity.
Qed.

End SelectFacts.

Lemma scan_beams_error (model : Model) (eos : nat)
    (top_value : list (list entry)) (active_ids_prob : list R) (e : error) :
  scan_beams model eos top_value active_ids_prob = inl e ->
  e = TypeError /\
  exists b, b < length top_value /\
            is_tensor (last (nth b top_value []) no_entry) = false.
Proof.
  unfold scan_beams. intros H. apply scan_from_error in H.
  destruct H as [-> (b & Hb & Ht)]. split; [reflexivity|].
  exists b. apply in_seq in Hb. split; [lia|exact Ht].
Qed.

(** The rounds of a selection that ends without error make [n] choices. *)
Lemma length_select (model : Model) (n eos : nat)
    (active_ids_prob : list R) :
  forall top_value,
    let r := select model n eos top_value active_ids_prob in
    length (fst r) <= n /\ (snd r = None -> length (fst r) = n).
Proof.
  induction n as [|n IH]; intros tv; simpl; [auto|].
  destruct (scan_beams model eos tv active_ids_prob) as [e|c]; simpl.
  - split; [lia|discriminate].
  - destruct (IH (pop_at tv (beam_id c))) as [H1 H2]. split; [lia|].
    intros H. rewrite H2 by exact H. reflexivity.
Qed.

Lemma select_error (model : Model) (n eos : nat)
    (active_ids_prob : list R) (e : error) :
  forall top_value,
    snd (select model n eos top_value active_ids_prob) = Some e ->
    e = TypeError.
Proof.
  induction n as [|n IH]; intros tv; simpl; [discriminate|].
  destruct (scan_beams model eos tv active_ids_prob) as [e'|c] eqn:E; simpl.
  - intros H. injection H as <-. apply scan_beams_error in E. apply E.
  - apply IH.
Qed.

Lemma select_good (model : Model) (eos : nat) (active_ids_prob : list R)
    (n : nat) :
  forall top_value c,
    In c (fst (select model n eos top_value active_ids_prob)) ->
    c = fallback eos \/
    (chosen_from model top_value active_ids_prob c /\ (c_value c < big)%R).
Proof.
  induction n as [|n IH]; intros tv c; simpl; [contradiction|].
  destruct (scan_beams model eos tv active_ids_prob) as [e|c0] eqn:E; simpl;
    [contradiction|].
  intros [<-|H]; [eapply scan_beams_good, E|].
  apply IH in H.
  destruct H as [H|[[Hb (e & He & Hr)] Hlt]]; [left; exact H|].
  right. split; [|exact Hlt].
  rewrite length_pop_at in Hb. split; [exact Hb|].
  exists e. split; [|exact Hr]. eapply in_pop_at, He.
Qed.

(** *** Rounds without error *)

Lemma length_removelast (A : Type) (l : list A) :
  length (removelast l) = length l - 1.
Proof.
  induction l as [|x l IH]; [reflexivity|].
  destruct l; [reflexivity|]. simpl in *. rewrite IH. lia.
Qed.

Lemma pop_at_lengths (n : nat) (top_value : list (list entry)) (b : nat) :
  Forall (fun buf => S n <= length buf) top_value ->
  Forall (fun buf => n <= length buf) (pop_at top_value b).
Proof.
  intros H. apply Forall_forall. intros buf Hin.
  apply (In_nth _ _ []) in Hin. destruct Hin as (i & Hi & <-).
  rewrite length_pop_at in Hi. unfold pop_at. rewrite nth_set_item.
  rewrite Forall_forall in H.
  destruct ((i =? b) && (b <? length top_value)) eqn:E.
  - apply andb_prop in E. destruct E as [_ E]. apply Nat.ltb_lt in E.
    rewrite length_removelast.
    specialize (H (nth b top_value []) (nth_In _ _ E)). lia.
  - specialize (H (nth i top_value []) (nth_In _ _ Hi)). lia.
Qed.

Lemma Forall_set_item (A : Type) (Q : A -> Prop) (l : list A) (i : nat)
    (x : A) :
  Forall Q l -> Q x -> Forall Q (set_item l i x).
Proof.
  intros Hl Hx. revert i.
  induction Hl as [|y l Hy Hl IH]; intros [|i]; simpl; constructor; auto.
Qed.




(** *** A round that reads a sentinel *)

Lemma last_repeat (A : Type) (x d : A) (k : nat) :
  1 <= k -> last (repeat x k) d = x.
Proof.
  induction k as [|k IH]; [lia|]. intros _.
  destruct k as [|k]; [reflexivity|].
  change (last (repeat x (S k)) d = x). apply IH. lia.
Qed.

(** One buffer with sentinels left in front of fewer tensor elements than
    there are rounds: the round that follows the last of them reads a
    sentinel, and [torch.log] raises [TypeError]. *)
Lemma select_sentinel_raises (model : Model) (eos : nat) (s : R)
    (sent : entry) (k : nat) (R0 : list entry) :
  is_tensor sent = false -> 1 <= k ->
  Forall (fun e => is_tensor e = true) R0 ->
  forall n, length R0 < n ->
    snd (select model n eos [repeat sent k ++ R0] [s]) = Some TypeError.
Proof.
  intros Hsent Hk. induction R0 as [|x R0 IH] using rev_ind;
    intros Ht n Hn; (destruct n as [|n]; [simpl in Hn; lia|]).
  - cbn [select]. unfold scan_beams. cbn [length seq scan_from].
    unfold scan_beam. cbn [nth]. rewrite app_nil_r, last_repeat by exact Hk.
    rewrite Hsent. reflexivity.
  - apply Forall_app in Ht. destruct Ht as [Ht Hx].
    inversion Hx as [|? ? Hx' _]; subst.
    rewrite length_app in Hn. simpl in Hn.
    assert (Hlast : last (repeat sent k ++ R0 ++ [x]) no_entry = x)
      by (rewrite app_assoc; apply last_last).
    cbn [select].
    destruct (scan_beams model eos [repeat sent k ++ R0 ++ [x]] [s])
      as [e|c] eqn:E.
    + apply scan_beams_error in E. destruct E as [_ (b & Hb & Hf)].
      simpl in Hb. replace b with 0 in Hf by lia. cbn [nth] in Hf.
      rewrite Hlast in Hf. congruence.
    + assert (Hc : beam_id c = 0).
      { apply scan_beams_good in E. destruct E as [->|[[Hb _] _]];
          [reflexivity|]. simpl in Hb. lia. }
      rewrite Hc. cbn [snd]. unfold pop_at. cbn [nth set_item].
      rewrite (app_assoc (repeat sent k) R0 [x]), removelast_last.
      apply IH; [exact Ht|lia].
Qed.

(** ** One pass of the loop *)

Section PassFacts.
Variable tokenizer : Tokenizer.
Variable model : Model.
Variables beam_width max_len : Z.

Lemma in_combine_ex (A B : Type) (l : list A) (l' : list B) (x : A) :
  length l = length l' -> In x l -> exists y, In (x, y) (combine l l').
Proof.
  revert l'; induction l as [|a l IH]; intros [|b l'] Hl; simpl in *;
    try contradiction; try discriminate.
  intros [->|H]; [eauto|].
  destruct (IH l' (eq_add_S _ _ Hl) H) as [y Hy]. eauto.
Qed.

Lemma in_combine_ex_r (A B : Type) (l : list A) (l' : list B) (y : B) :
  length l = length l' -> In y l' -> exists x, In (x, y) (combine l l').
Proof.
  revert l'; induction l as [|a l IH]; intros [|b l'] Hl; simpl in *;
    try contradiction; try discriminate.
  intros [->|H]; [eauto|].
  destruct (IH l' (eq_add_S _ _ Hl) H) as [x Hx]. eauto.
Qed.

Lemma partition_nil_spec (all_ids : list (list nat)) (all_ids_prob : list R)
    (generate_result a : list (list nat)) (ap : list R)
    (g' : list (list nat)) :
  partition tokenizer beam_width max_len (combine all_ids all_ids_prob)
            [] [] generate_result = inr (a, ap, g') ->
  length a = length ap /\
  length a <= length all_ids /\
  (forall ids, In ids a ->
     In ids all_ids /\ active_cond tokenizer max_len ids) /\
  (forall s, In s ap -> In s all_ids_prob) /\
  (exists g_new, g' = generate_result ++ g_new /\
                 forall ids, In ids g_new -> In ids all_ids) /\
  (Z.of_nat (length generate_result) <= Z.max beam_width 0 ->
   Z.of_nat (length g') <= Z.max beam_width 0)%Z /\
  (all_ids <> [] -> length all_ids = length all_ids_prob ->
   (1 <= beam_width)%Z -> a = [] -> g' <> []).
Proof.
  intros H. apply partition_spec in H.
  destruct H as (an & apn & gn & Ha & Hap & -> & Hl & Hle & Hin & Hg & Hb & Hp).
  simpl in Ha, Hap. subst an apn.
  split; [exact Hl|]. split.
  { rewrite length_combine in Hle. lia. }
  split.
  { intros ids Hi. destruct (in_combine_ex a ap ids Hl Hi) as [s Hs].
    destruct (Hin _ _ Hs) as [Hc Hact]. split; [|exact Hact].
    eapply in_combine_l, Hc. }
  split.
  { intros s Hs. destruct (in_combine_ex_r a ap s Hl Hs) as [ids Hi].
    destruct (Hin _ _ Hi) as [Hc _]. eapply in_combine_r, Hc. }
  split.
  { exists gn. split; [reflexivity|]. intros ids Hi. apply Hg in Hi.
    apply in_map_iff in Hi. destruct Hi as ([ids' s] & <- & Hi).
    eapply in_combine_l, Hi. }
  split; [exact Hb|].
  intros Hne Hlen. apply Hp.
  destruct all_ids, all_ids_prob; simpl in *; congruence.
Qed.

Lemma length_top_values (active_ids batch_x : list (list nat)) :
  length (top_values tokenizer model beam_width active_ids batch_x) =
  length active_ids.
Proof. unfold top_values. rewrite length_map, length_seq. reflexivity. Qed.

Lemma nth_top_values (active_ids batch_x : list (list nat)) (b : nat) :
  b < length active_ids ->
  nth b (top_values tokenizer model beam_width active_ids batch_x) [] =
  top_k (Z.to_nat beam_width) (eos_token_id tokenizer)
        (vocab_size tokenizer)
        (model batch_x b (length (nth b active_ids []) - 1)).
Proof.
  intros Hb. unfold top_values.
  rewrite (nth_indep _ [] (top_k (Z.to_nat beam_width)
     (eos_token_id tokenizer) (vocab_size tokenizer)
     (model batch_x 0 (length (nth 0 active_ids []) - 1)))).
  - rewrite (map_nth (fun b => top_k _ _ _ (model batch_x b _))).
    rewrite seq_nth; auto.
  - rewrite length_map, length_seq. exact Hb.
Qed.

(** A pass that ends without error makes [beam_width] candidates. *)
Lemma length_iterate_final (active_ids : list (list nat))
    (active_ids_prob : list R) :
  it_raised (iterate tokenizer model beam_width active_ids active_ids_prob)
  = None ->
  length (it_final_top_value
            (iterate tokenizer model beam_width active_ids active_ids_prob))
  = Z.to_nat beam_width.
Proof. simpl. apply length_select. Qed.

Lemma iterate_raised (active_ids : list (list nat))
    (active_ids_prob : list R) (e : error) :
  it_raised (iterate tokenizer model beam_width active_ids active_ids_prob)
  = Some e ->
  e = TypeError.
Proof. simpl. apply select_error. Qed.


(** The first pass raises when the vocabulary has fewer than [beam_width]
    ids, none of negative probability. *)
Lemma iterate_single_raises (ids : list nat) (s : R) :
  non_negative tokenizer model ->
  (Z.of_nat (vocab_size tokenizer) < beam_width)%Z ->
  it_raised (iterate tokenizer model beam_width [ids] [s]) = Some TypeError.
Proof.
  intros Hpos Hbw. simpl. unfold top_values. simpl map.
  destruct (@top_k_structure (Z.to_nat beam_width)
              (eos_token_id tokenizer)
              (model (pad_sequence (pad_token_id tokenizer) [ids]) 0
                     (length ids - 1))
              (vocab_size tokenizer))
    as (R0 & -> & Hlen & Hreal & _); [intros u Hu; apply Hpos, Hu|].
  apply select_sentinel_raises; [reflexivity|lia| |lia].
  eapply Forall_impl; [|exact Hreal]. simpl. tauto.
Qed.

Lemma iterate_final_good (active_ids : list (list nat))
    (active_ids_prob : list R) (c : choice) :
  let it := iterate tokenizer model beam_width active_ids active_ids_prob in
  In c (it_final_top_value it) ->
  c = fallback (eos_token_id tokenizer) \/
  (chosen_from model (it_top_value it) active_ids_prob c /\
   (c_value c < big)%R).
Proof. simpl. apply select_good. Qed.

Lemma iterate_beam_id (active_ids : list (list nat))
    (active_ids_prob : list R) (c : choice) :
  active_ids <> [] ->
  In c (it_final_top_value
          (iterate tokenizer model beam_width active_ids active_ids_prob)) ->
  beam_id c < length active_ids.
Proof.
  intros Hne Hc. apply iterate_final_good in Hc.
  destruct Hc as [->|[[Hb _] _]].
  - simpl. destruct active_ids; [congruence|simpl; lia].
  - simpl in Hb. rewrite length_top_values in Hb. exact Hb.
Qed.

(** Every new candidate is an active candidate with one more token. *)
Lemma expand_parent (active_ids : list (list nat))
    (active_ids_prob : list R) (child : list nat) :
  active_ids <> [] ->
  In child (map (expand active_ids)
     (it_final_top_value
        (iterate tokenizer model beam_width active_ids active_ids_prob))) ->
  exists parent v, child = parent ++ [v] /\ In parent active_ids.
Proof.
  intros Hne Hc. apply in_map_iff in Hc. destruct Hc as (c & <- & Hc).
  exists (nth (beam_id c) active_ids []), (c_vocab_id c).
  split; [reflexivity|]. apply nth_In. eapply iterate_beam_id; eauto.
Qed.

(** *** The loop rule: an invariant of the passes gives a property of the
    result *)

Variable Inv :
  list (list nat) -> list R -> list (list nat) -> list iteration -> Prop.
Variable Post : list iteration * outcome (list (list nat)) -> Prop.

Hypothesis post_fuel :
  forall all_ids all_ids_prob generate_result log,
    Inv all_ids all_ids_prob generate_result log -> Post (log, OutOfFuel).

Hypothesis post_raise :
  forall all_ids all_ids_prob generate_result log e,
    Inv all_ids all_ids_prob generate_result log ->
    partition tokenizer beam_width max_len (combine all_ids all_ids_prob)
              [] [] generate_result = inl e ->
    Post (log, Raised e).

Hypothesis post_return :
  forall all_ids all_ids_prob generate_result log a ap g',
    Inv all_ids all_ids_prob generate_result log ->
    partition tokenizer beam_width max_len (combine all_ids all_ids_prob)
              [] [] generate_result = inr (a, ap, g') ->
    a = [] \/ (beam_width <= Z.of_nat (length g'))%Z ->
    Post (log, Returned g').

Hypothesis post_raise_pass :
  forall all_ids all_ids_prob generate_result log a ap g' e,
    Inv all_ids all_ids_prob generate_result log ->
    partition tokenizer beam_width max_len (combine all_ids all_ids_prob)
              [] [] generate_result = inr (a, ap, g') ->
    a <> [] -> (Z.of_nat (length g') < beam_width)%Z ->
    let it := iterate tokenizer model beam_width a ap in
    it_raised it = Some e ->
    Post (log ++ [it], Raised e).

Hypothesis inv_step :
  forall all_ids all_ids_prob generate_result log a ap g',
    Inv all_ids all_ids_prob generate_result log ->
    partition tokenizer beam_width max_len (combine all_ids all_ids_prob)
              [] [] generate_result = inr (a, ap, g') ->
    a <> [] -> (Z.of_nat (length g') < beam_width)%Z ->
    let it := iterate tokenizer model beam_width a ap in
    it_raised it = None ->
    Inv (map (expand a) (it_final_top_value it))
        (map c_value (it_final_top_value it)) g' (log ++ [it]).

Lemma generate_loop_rule (fuel : nat) :
  forall all_ids all_ids_prob generate_result log,
    Inv all_ids all_ids_prob generate_result log ->
    Post (generate_loop tokenizer model beam_width max_len fuel
                        all_ids all_ids_prob generate_result log).
Proof.
  induction fuel as [|fuel IH]; intros all_ids all_ids_prob g log HI;
    cbn [generate_loop].
  - eapply post_fuel, HI.
  - destruct (partition _ _ _ _ _ _ _) as [e|[[a ap] g']] eqn:E.
    + eapply post_raise; eauto.
    + destruct a as [|c a].
      * cbn [orb]. eapply post_return; eauto.
      * cbn [orb]. destruct (beam_width <=? Z.of_nat (length g'))%Z eqn:B.
        -- eapply post_return; eauto. right. apply Z.leb_le. exact B.
        -- apply Z.leb_gt in B.
           assert (Hne : c :: a <> []) by discriminate.
           destruct (it_raised (iterate tokenizer model beam_width (c :: a)
                                        ap)) as [e|] eqn:Er.
           ++ exact (post_raise_pass HI E Hne B Er).
           ++ apply IH. exact (inv_step HI E Hne B Er).
Qed.

End PassFacts.

(** ** The whole loop *)

Section LoopFacts.
Variable tokenizer : Tokenizer.
Variable model : Model.
Variables beam_width max_len : Z.

Local Abbreviation loop := (generate_loop tokenizer model beam_width max_len).
Local Abbreviation part := (partition tokenizer beam_width max_len).
Local Abbreviation pass := (iterate tokenizer model beam_width).

Lemma step_uniform (L : nat) (all_ids : list (list nat))
    (all_ids_prob : list R) (g a : list (list nat)) (ap : list R)
    (g' : list (list nat)) :
  Forall (fun ids => length ids = L) all_ids ->
  part (combine all_ids all_ids_prob) [] [] g = inr (a, ap, g') ->
  a <> [] ->
  (Z.of_nat L < max_len)%Z /\
  Forall (fun ids => length ids = S L)
         (map (expand a) (it_final_top_value (pass a ap))).
Proof.
  intros HL HP Hne. apply partition_nil_spec in HP.
  destruct HP as (_ & _ & Hin & _).
  rewrite Forall_forall in HL. split.
  - destruct a as [|c a]; [congruence|].
    destruct (Hin c (or_introl eq_refl)) as [Hc (t & _ & _ & Hlt)].
    rewrite (HL _ Hc) in Hlt. exact Hlt.
  - apply Forall_forall. intros child Hchild.
    apply expand_parent in Hchild; [|exact Hne].
    destruct Hchild as (parent & v & -> & Hp).
    rewrite length_app. simpl. destruct (Hin _ Hp) as [Hp' _].
    rewrite (HL _ Hp'). lia.
Qed.

(** The loop is left within [max_len - L + 1] passes when the candidates
    have [L] tokens. *)
Lemma generate_loop_terminates (fuel : nat) :
  forall L all_ids all_ids_prob g log,
    Forall (fun ids => length ids = L) all_ids ->
    Z.to_nat (max_len - Z.of_nat L) < fuel ->
    snd (loop fuel all_ids all_ids_prob g log) <> OutOfFuel.
Proof.
  induction fuel as [|fuel IH]; intros L all_ids all_ids_prob g log HL Hf;
    [lia|].
  cbn [generate_loop]. destruct (part _ _ _ _) as [e|[[a ap] g']] eqn:E;
    [simpl; discriminate|].
  destruct a as [|c a]; [simpl; discriminate|].
  cbn [orb]. destruct (beam_width <=? _)%Z; [simpl; discriminate|].
  destruct (it_raised _); [simpl; discriminate|].
  destruct (step_uniform all_ids_prob g HL E) as [Hlt HL'];
    [discriminate|].
  apply (IH (S L)); [exact HL'|]. lia.
Qed.

(** More fuel does not change a result. *)
Lemma generate_loop_more_fuel (fuel : nat) :
  forall fuel' all_ids all_ids_prob g log,
    snd (loop fuel all_ids all_ids_prob g log) <> OutOfFuel ->
    fuel <= fuel' ->
    loop fuel' all_ids all_ids_prob g log =
    loop fuel all_ids all_ids_prob g log.
Proof.
  induction fuel as [|fuel IH]; intros fuel' all_ids all_ids_prob g log H Hf.
  - simpl in H. congruence.
  - destruct fuel' as [|fuel']; [lia|]. cbn [generate_loop] in *.
    destruct (part _ _ _ _) as [e|[[a ap] g']]; [reflexivity|].
    destruct (_ || _); [reflexivity|].
    destruct (it_raised _); [reflexivity|].
    apply IH; [exact H|lia].
Qed.

(** The result never holds more than [beam_width] sequences. *)
Lemma generate_loop_result_length (fuel : nat)
    (all_ids : list (list nat)) (all_ids_prob : list R)
    (g : list (list nat)) (log log' : list iteration)
    (g' : list (list nat)) :
  (Z.of_nat (length g) <= Z.max beam_width 0)%Z ->
  loop fuel all_ids all_ids_prob g log = (log', Returned g') ->
  (Z.of_nat (length g') <= Z.max beam_width 0)%Z.
Proof.
  intros Hg Hrun.
  assert (H : forall r, snd (loop fuel all_ids all_ids_prob g log)
                        = Returned r ->
                   (Z.of_nat (length r) <= Z.max beam_width 0)%Z).
  { apply generate_loop_rule with
      (Inv := fun _ _ g _ => (Z.of_nat (length g) <= Z.max beam_width 0)%Z)
      (Post := fun res => forall r, snd res = Returned r ->
                 (Z.of_nat (length r) <= Z.max beam_width 0)%Z);
      simpl; try discriminate; auto.
    - intros ? ? ? ? a ap r0 HI HP _ r Hr. injection Hr as <-.
      apply partition_nil_spec in HP. apply HP, HI.
    - intros ? ? ? ? a ap r0 HI HP _ _ _.
      apply partition_nil_spec in HP. apply HP, HI. }
  apply H. rewrite Hrun. reflexivity.
Qed.

End LoopFacts.

(** ** Post-processing (lines 161-164) *)

Lemma strip_all_length (tokenizer : Tokenizer) (g : list (list nat)) :
  forall stripped,
    strip_all tokenizer g = inr stripped -> length stripped = length g.
Proof.
  induction g as [|ids g IH]; intros stripped; simpl.
  - intros H. injection H as <-. reflexivity.
  - destruct (strip_eos tokenizer ids); [discriminate|].
    destruct (strip_all tokenizer g); [discriminate|].
    intros H. injection H as <-. simpl. f_equal. auto.
Qed.

Lemma generator_fuel_returned (tokenizer : Tokenizer) (model : Model)
    (beam_width max_len : Z) (fuel : nat) (seed : option string)
    (log : list iteration) (out : list string) :
  generator_fuel tokenizer model beam_width max_len fuel seed
  = (log, Returned out) ->
  exists s g stripped,
    seed = Some s /\ String.length s <> 0 /\
    beam_search tokenizer model beam_width max_len fuel s
    = (log, Returned g) /\
    strip_all tokenizer g = inr stripped /\
    out = convert_ids_to_sentences tokenizer stripped.
Proof.
  unfold generator_fuel. destruct seed as [s|]; [|discriminate].
  destruct (String.length s =? 0) eqn:E; [discriminate|].
  apply Nat.eqb_neq in E.
  destruct (beam_search _ _ _ _ _ _) as [log' [g|e|]] eqn:B;
    try discriminate.
  destruct (strip_all tokenizer g) as [e|stripped] eqn:St; [discriminate|].
  intros H. injection H as <- <-.
  exists s, g, stripped. auto.
Qed.

(** ** The shape of the candidates along the loop *)

Section ShapeFacts.
Variable tokenizer : Tokenizer.
Variable model : Model.
Variables beam_width max_len : Z.
Variable L0 : nat.

Local Abbreviation loop := (generate_loop tokenizer model beam_width max_len).
Local Abbreviation part := (partition tokenizer beam_width max_len).
Local Abbreviation pass := (iterate tokenizer model beam_width).

Lemma shape_collected (all_ids : list (list nat)) (all_ids_prob : list R)
    (g : list (list nat)) (log : list iteration)
    (a : list (list nat)) (ap : list R) (g' : list (list nat)) :
  shape beam_width max_len L0 all_ids all_ids_prob g log ->
  part (combine all_ids all_ids_prob) [] [] g = inr (a, ap, g') ->
  Forall (fun ids => ids <> [] /\
            (Z.of_nat (length ids) <= Z.max max_len (Z.of_nat L0))%Z) g'.
Proof.
  intros (HL0 & HL & _ & _ & _ & Hb & Hg & _) HP.
  apply partition_nil_spec in HP.
  destruct HP as (_ & _ & _ & _ & (gn & -> & Hgn) & _).
  apply Forall_app. split; [exact Hg|].
  apply Forall_forall. intros ids Hi. apply Hgn in Hi.
  rewrite Forall_forall in HL. specialize (HL _ Hi). split.
  - destruct ids; [simpl in HL; lia|discriminate].
  - destruct Hb as [->|Hb]; simpl in *; lia.
Qed.

(** The pass on the active candidates of a state of the loop. *)
Lemma shape_pass (all_ids : list (list nat)) (all_ids_prob : list R)
    (g : list (list nat)) (log : list iteration)
    (a : list (list nat)) (ap : list R) (g' : list (list nat)) :
  shape beam_width max_len L0 all_ids all_ids_prob g log ->
  part (combine all_ids all_ids_prob) [] [] g = inr (a, ap, g') ->
  a <> [] -> (Z.of_nat (length g') < beam_width)%Z ->
  (Z.of_nat (L0 + length (log ++ [pass a ap])) <= max_len)%Z /\
  Forall (pass_shape beam_width max_len) (log ++ [pass a ap]).
Proof.
  intros HS HP Hne Hlt.
  destruct HS as (HL0 & HL & Hlen & Hnil & Hw & Hb & Hg & Hlog).
  destruct (@step_uniform tokenizer model beam_width max_len _ _
              all_ids_prob g _ _ _ HL HP Hne) as [HltL _].
  apply partition_nil_spec in HP. destruct HP as (_ & Hle & Hact & _).
  rewrite length_app. change (length [pass a ap]) with 1.
  split; [lia|].
  apply Forall_app. split; [exact Hlog|].
  constructor; [|constructor]. split; simpl; [lia|].
  apply Forall_forall. intros ids Hi.
  destruct (Hact _ Hi) as [_ (t & _ & _ & Ht)]. exact Ht.
Qed.

Lemma shape_step (all_ids : list (list nat)) (all_ids_prob : list R)
    (g : list (list nat)) (log : list iteration)
    (a : list (list nat)) (ap : list R) (g' : list (list nat)) :
  shape beam_width max_len L0 all_ids all_ids_prob g log ->
  part (combine all_ids all_ids_prob) [] [] g = inr (a, ap, g') ->
  a <> [] -> (Z.of_nat (length g') < beam_width)%Z ->
  it_raised (pass a ap) = None ->
  shape beam_width max_len L0
        (map (expand a) (it_final_top_value (pass a ap)))
        (map c_value (it_final_top_value (pass a ap))) g'
        (log ++ [pass a ap]).
Proof.
  intros HS HP Hne Hlt Hr.
  pose proof (shape_collected HS HP) as Hg'.
  destruct (shape_pass HS HP Hne Hlt) as [Hcount Hlog'].
  destruct HS as (HL0 & HL & Hlen & Hnil & Hw & Hb & Hg & Hlog).
  destruct (@step_uniform tokenizer model beam_width max_len _ _
              all_ids_prob g _ _ _ HL HP Hne) as [HltL HL'].
  pose proof (length_iterate_final tokenizer model beam_width a ap Hr)
    as Hfinal.
  assert (Hbw : 1 <= Z.to_nat beam_width) by lia.
  unfold shape.
  split; [exact HL0|]. split.
  { rewrite length_app. change (length [pass a ap]) with 1.
    replace (L0 + (length log + 1)) with (S (L0 + length log)) by lia.
    exact HL'. }
  split; [rewrite !length_map; reflexivity|]. split.
  { intros Hnil'. apply (f_equal (@length _)) in Hnil'.
    rewrite length_map, Hfinal in Hnil'. simpl in Hnil'. lia. }
  split; [rewrite length_map, Hfinal; lia|].
  split; [right; exact Hcount|]. split; [exact Hg'|exact Hlog'].
Qed.

(** The loop raises no error but the [TypeError] of a selection that reads
    a sentinel; what it returns, and the passes it made, have the shape
    of the candidates. *)
Lemma generate_loop_shape (fuel : nat) (all_ids : list (list nat))
    (all_ids_prob : list R) (g : list (list nat)) (log : list iteration) :
  shape beam_width max_len L0 all_ids all_ids_prob g log ->
  match loop fuel all_ids all_ids_prob g log with
  | (log', Returned g') => result_shape beam_width max_len L0 log' g'
  | (log', Raised e) =>
      e = TypeError /\
      (Z.of_nat (L0 + length log') <= max_len)%Z /\
      Forall (pass_shape beam_width max_len) log' /\
      exists it, py_last log' = Some it /\ it_raised it = Some TypeError
  | (_, OutOfFuel) => True
  end.
Proof.
  apply generate_loop_rule with
    (Inv := shape beam_width max_len L0)
    (Post := fun res =>
       match res with
       | (log', Returned g') => result_shape beam_width max_len L0 log' g'
       | (log', Raised e) =>
           e = TypeError /\
           (Z.of_nat (L0 + length log') <= max_len)%Z /\
           Forall (pass_shape beam_width max_len) log' /\
           exists it, py_last log' = Some it /\ it_raised it = Some TypeError
       | (_, OutOfFuel) => True
       end); auto.
  - intros ? ? ? ? e (HL0 & HL & _) HP. exfalso.
    apply partition_error in HP. destruct HP as [_ HP].
    apply Exists_exists in HP. destruct HP as ([ids s] & Hin & Hnil).
    simpl in Hnil. subst ids. apply in_combine_l in Hin.
    rewrite Forall_forall in HL. specialize (HL _ Hin). simpl in HL. lia.
  - intros all_ids' all_ids_prob' g0 log0 a ap g' HS HP Hret.
    pose proof (shape_collected HS HP) as Hg'.
    destruct HS as (HL0 & HL & Hlen & Hnil & Hw & Hb & Hg & Hlog).
    apply partition_nil_spec in HP.
    destruct HP as (_ & _ & _ & _ & _ & _ & Hp).
    split; [exact Hg'|]. split; [|split; assumption].
    intros Hbw. destruct Hret as [->|Hret]; [apply Hp; auto|].
    destruct g'; [simpl in Hret; lia|discriminate].
  - intros ids0 pr0 g0 log0 a ap g' e HS HP Hne Hlt it Hr. subst it.
    destruct (shape_pass HS HP Hne Hlt) as [Hcount Hlog'].
    pose proof (iterate_raised _ _ _ _ _ Hr) as ->.
    split; [reflexivity|]. split; [exact Hcount|]. split; [exact Hlog'|].
    exists (pass a ap). rewrite py_last_app. auto.
  - intros ids0 pr0 g0 log0 a ap g' HS HP Hne Hlt it Hr.
    exact (shape_step HS HP Hne Hlt Hr).
Qed.

End ShapeFacts.

(** ** The decoder *)

Section GeneratorFacts.
Variable tokenizer : Tokenizer.
Variable model : Model.
Variables beam_width max_len : Z.

Local Abbreviation search := (beam_search tokenizer model beam_width max_len).

Lemma beam_search_empty (fuel : nat) (s : string) :
  encode tokenizer s = [] -> search (S fuel) s = ([], Raised IndexError).
Proof.
  intros H. unfold beam_search, convert_sentences_to_ids. simpl.
  rewrite H. reflexivity.
Qed.

Lemma shape_seed (s : string) :
  encode tokenizer s <> [] ->
  shape beam_width max_len (length (encode tokenizer s))
        (convert_sentences_to_ids tokenizer [s]) [0%R] [] [].
Proof.
  intros H. unfold shape. simpl.
  split; [destruct (encode tokenizer s); [congruence|simpl; lia]|].
  split; [constructor; [lia|constructor]|].
  split; [reflexivity|]. split; [discriminate|].
  split; [destruct (Z.to_nat beam_width); lia|].
  split; [left; reflexivity|]. split; constructor.
Qed.

Lemma beam_search_shape (fuel : nat) (s : string) :
  encode tokenizer s <> [] ->
  match search fuel s with
  | (log, Returned g) =>
      result_shape beam_width max_len (length (encode tokenizer s)) log g
  | (log, Raised e) =>
      e = TypeError /\
      (Z.of_nat (length (encode tokenizer s) + length log) <= max_len)%Z /\
      Forall (pass_shape beam_width max_len) log /\
      exists it, py_last log = Some it /\ it_raised it = Some TypeError
  | (_, OutOfFuel) => True
  end.
Proof.
  intros H. unfold beam_search.
  apply generate_loop_shape, shape_seed, H.
Qed.

Lemma beam_search_terminates (fuel : nat) (s : string) :
  Z.to_nat (max_len - Z.of_nat (length (encode tokenizer s))) < fuel ->
  snd (search fuel s) <> OutOfFuel.
Proof.
  intros H. unfold beam_search.
  apply generate_loop_terminates with (L := length (encode tokenizer s));
    [|exact H].
  constructor; [reflexivity|constructor].
Qed.


(** The bound of [generator] on the passes is never reached. *)
Lemma generator_fuel_enough (seed : option string) :
  snd (generator tokenizer model beam_width max_len seed) <> OutOfFuel.
Proof.
  unfold generator, generator_fuel. destruct seed as [s|]; [|discriminate].
  destruct (String.length s =? 0); [discriminate|].
  pose proof (@beam_search_terminates (S (Z.to_nat max_len)) s) as H.
  destruct (search _ s) as [log [g|e|]]; simpl in *.
  - destruct (strip_all tokenizer g); discriminate.
  - discriminate.
  - exfalso. apply H; [lia|reflexivity].
Qed.

End GeneratorFacts.

(** ** The logged passes *)

Lemma generate_loop_log (tokenizer : Tokenizer) (model : Model)
    (beam_width max_len : Z) (P : iteration -> Prop) :
  (forall a ap, a <> [] -> length a = length ap ->
                P (iterate tokenizer model beam_width a ap)) ->
  forall fuel all_ids all_ids_prob g log,
    Forall P log ->
    Forall P (fst (generate_loop tokenizer model beam_width max_len fuel
                                 all_ids all_ids_prob g log)).
Proof.
  intros HP fuel all_ids all_ids_prob g log Hlog.
  assert (Hstep : forall all_ids probs g log a ap g',
    Forall P log ->
    partition tokenizer beam_width max_len (combine all_ids probs) [] [] g
    = inr (a, ap, g') ->
    a <> [] ->
    Forall P (log ++ [iterate tokenizer model beam_width a ap])).
  { intros ? ? ? ? a ap g' HI Hpart Hne.
    apply Forall_app. split; [exact HI|]. constructor; [|constructor].
    apply HP; [exact Hne|]. apply partition_nil_spec in Hpart. apply Hpart. }
  apply generate_loop_rule with
    (Inv := fun _ _ _ log => Forall P log)
    (Post := fun res => Forall P (fst res)); cbv beta; simpl fst; auto.
  - intros. eapply Hstep; eauto.
  - intros. eapply Hstep; eauto.
Qed.

Lemma generate_loop_step (tokenizer : Tokenizer) (model : Model)
    (beam_width max_len : Z) (fuel : nat) (all_ids : list (list nat))
    (all_ids_prob : list R) (g : list (list nat)) (log : list iteration)
    (a : list (list nat)) (ap : list R) (g' : list (list nat)) :
  partition tokenizer beam_width max_len (combine all_ids all_ids_prob)
            [] [] g = inr (a, ap, g') ->
  a <> [] -> (Z.of_nat (length g') < beam_width)%Z ->
  generate_loop tokenizer model beam_width max_len (S fuel)
                all_ids all_ids_prob g log =
  let it := iterate tokenizer model beam_width a ap in
  match it_raised it with
  | Some e => (log ++ [it], Raised e)
  | None =>
      generate_loop tokenizer model beam_width max_len fuel
                    (map (expand a) (it_final_top_value it))
                    (map c_value (it_final_top_value it)) g' (log ++ [it])
  end.
Proof.
  intros HP Hne Hlt. cbn [generate_loop]. rewrite HP.
  destruct a; [congruence|]. apply Z.leb_gt in Hlt. rewrite Hlt. reflexivity.
Qed.

(** The log only grows. *)
Lemma generate_loop_log_incl (tokenizer : Tokenizer) (model : Model)
    (beam_width max_len : Z) (fuel : nat) (all_ids : list (list nat))
    (all_ids_prob : list R) (g : list (list nat)) (log : list iteration) :
  incl log (fst (generate_loop tokenizer model beam_width max_len fuel
                               all_ids all_ids_prob g log)).
Proof.
  apply generate_loop_rule with
    (Inv := fun _ _ _ log' => incl log log')
    (Post := fun res => incl log (fst res)); cbv beta; simpl fst; auto.
  - intros. apply incl_appl. assumption.
  - intros. apply incl_appl. assumption.
  - apply incl_refl.
Qed.

Lemma generator_fuel_log (tokenizer : Tokenizer) (model : Model)
    (beam_width max_len : Z) (fuel : nat) (seed : option string)
    (it : iteration) :
  In it (fst (generator_fuel tokenizer model beam_width max_len fuel seed)) ->
  exists s,
    seed = Some s /\
    In it (fst (beam_search tokenizer model beam_width max_len fuel s)).
Proof.
  unfold generator_fuel. destruct seed as [s|]; [|contradiction].
  destruct (String.length s =? 0); [contradiction|].
  destruct (beam_search _ _ _ _ _ s) as [log out] eqn:E.
  assert (H : In it log ->
              exists s0, Some s = Some s0 /\
                In it (fst (beam_search tokenizer model beam_width max_len
                                        fuel s0))).
  { intros Hit. exists s. rewrite E. auto. }
  destruct out as [g|e|]; simpl; auto.
  destruct (strip_all tokenizer g); simpl; auto.
Qed.

(** Every logged pass is a pass of the loop body on a non-empty set of
    active candidates, with one score for each. *)
Lemma generator_log (tokenizer : Tokenizer) (model : Model)
    (beam_width max_len : Z) (seed : option string) (P : iteration -> Prop) :
  (forall a ap, a <> [] -> length a = length ap ->
                P (iterate tokenizer model beam_width a ap)) ->
  Forall P (fst (generator tokenizer model beam_width max_len seed)).
Proof.
  intros HP. apply Forall_forall. intros it Hit.
  apply generator_fuel_log in Hit. destruct Hit as (s & _ & Hit).
  unfold beam_search in Hit.
  pose proof (@generate_loop_log tokenizer model beam_width max_len P HP
                (S (Z.to_nat max_len))
                (convert_sentences_to_ids tokenizer [s]) [0%R] [] []
                (Forall_nil P)) as H.
  rewrite Forall_forall in H. auto.
Qed.

(** The first pass, on an active seed, is logged. *)
Lemma generator_first_pass (tokenizer : Tokenizer) (model : Model)
    (beam_width max_len : Z) (s : string) :
  (1 <= beam_width)%Z -> String.length s <> 0 ->
  active_cond tokenizer max_len (encode tokenizer s) ->
  In (iterate tokenizer model beam_width [encode tokenizer s] [0%R])
     (fst (generator tokenizer model beam_width max_len (Some s))).
Proof.
  intros Hbw Hs (t & Ht & Hneq & Hlen).
  set (it := iterate tokenizer model beam_width [encode tokenizer s] [0%R]).
  assert (Hlog : In it (fst (beam_search tokenizer model beam_width max_len
                                         (S (Z.to_nat max_len)) s))).
  { unfold beam_search, convert_sentences_to_ids. simpl map.
    rewrite (@generate_loop_step tokenizer model beam_width max_len _ _ _ _
               _ [encode tokenizer s] [0%R] []);
      [|simpl|discriminate|simpl; lia].
    - cbv zeta. fold it. destruct (it_raised it).
      + simpl. left. reflexivity.
      + apply generate_loop_log_incl. left. reflexivity.
    - rewrite Ht. apply Nat.eqb_neq in Hneq. apply Z.ltb_lt in Hlen.
      rewrite Hneq, Hlen. reflexivity. }
  unfold generator, generator_fuel.
  apply Nat.eqb_neq in Hs. rewrite Hs.
  destruct (beam_search _ _ _ _ _ _) as [log [g|e|]]; simpl in *; auto.
  destruct (strip_all _ g); simpl; auto.
Qed.

(** ** Properties of the decoder *)

(** C1.  A call of the decoder with [beam_width >= 1] and [max_len >= 1]
    that returns, returns at most [beam_width] strings. *)
Theorem generator_at_most_beam_width (tokenizer : Tokenizer) (model : Model)
    (beam_width max_len : Z) (seed : option string)
    (log : list iteration) (out : list string) :
  (1 <= beam_width)%Z -> (1 <= max_len)%Z ->
  generator tokenizer model beam_width max_len seed = (log, Returned out) ->
  (Z.of_nat (length out) <= beam_width)%Z.
Proof.
  intros Hbw _ Hrun. apply generator_fuel_returned in Hrun.
  destruct Hrun as (s & g & stripped & _ & _ & Hsearch & Hstrip & ->).
  unfold convert_ids_to_sentences. rewrite length_map.
  rewrite (strip_all_length _ _ Hstrip).
  unfold beam_search in Hsearch.
  apply generate_loop_result_length in Hsearch; simpl; lia.
Qed.

Lemma generator_at_most_beam_width_witness :
  (Z.of_nat (length ["a"%string]) <= 1)%Z.
Proof.
  apply (@generator_at_most_beam_width char_tokenizer uniform_model 1 1
           (Some "a"%string) [] ["a"%string]); [lia|lia|reflexivity].
Defined.

Lemma offers_le (tokenizer : Tokenizer) (beam_width max_len : Z)
    (log : list iteration) :
  Forall (pass_shape beam_width max_len) log ->
  offers tokenizer log
  <= length log * (Z.to_nat beam_width * vocab_size tokenizer).
Proof.
  unfold offers. induction 1 as [|it log [Hit _] _ IH]; simpl; [lia|].
  pose proof (Nat.mul_le_mono_r _ _ (vocab_size tokenizer) Hit). lia.
Qed.

Lemma generator_fuel_stable (tokenizer : Tokenizer) (model : Model)
    (beam_width max_len : Z) (fuel fuel' : nat) (s : string) :
  Z.to_nat (max_len - Z.of_nat (length (encode tokenizer s))) < fuel ->
  fuel <= fuel' ->
  generator_fuel tokenizer model beam_width max_len fuel' (Some s) =
  generator_fuel tokenizer model beam_width max_len fuel (Some s).
Proof.
  intros Hf Hle. unfold generator_fuel, beam_search.
  rewrite (@generate_loop_more_fuel tokenizer model beam_width max_len
             fuel fuel'); auto.
  apply (@beam_search_terminates tokenizer model beam_width max_len fuel s Hf).
Qed.

(** C8.  With [beam_width >= 1] and [max_len >= 1] the loop ends on every
    seed: a bound of [max_len] passes or more is never reached and gives the
    result of the decoder.  The body of the loop is entered at most
    [max_len] times (the logged passes, which call the network, and the
    pass that leaves the loop); the active candidates of a pass are at most
    [beam_width] and shorter than [max_len]; and at most
    [max_len * beam_width * vocab_size] ids are offered to top-k buffers. *)
Theorem generator_terminates (tokenizer : Tokenizer) (model : Model)
    (beam_width max_len : Z) (seed : option string) (fuel : nat) :
  (1 <= beam_width)%Z -> (1 <= max_len)%Z -> Z.to_nat max_len <= fuel ->
  exists log out,
    generator_fuel tokenizer model beam_width max_len fuel seed = (log, out) /\
    out <> OutOfFuel /\
    generator tokenizer model beam_width max_len seed = (log, out) /\
    Forall (pass_shape beam_width max_len) log /\
    S (length log) <= Z.to_nat max_len /\
    offers tokenizer log
    <= Z.to_nat max_len * Z.to_nat beam_width * vocab_size tokenizer.
Proof.
  intros Hbw Hml Hfuel.
  assert (Hnil : forall out : outcome (list string),
            out <> OutOfFuel ->
            generator_fuel tokenizer model beam_width max_len fuel seed
            = ([], out) ->
            generator tokenizer model beam_width max_len seed = ([], out) ->
            exists log out,
              generator_fuel tokenizer model beam_width max_len fuel seed
              = (log, out) /\ out <> OutOfFuel /\
              generator tokenizer model beam_width max_len seed = (log, out) /\
              Forall (pass_shape beam_width max_len) log /\
              S (length log) <= Z.to_nat max_len /\
              offers tokenizer log
              <= Z.to_nat max_len * Z.to_nat beam_width
                 * vocab_size tokenizer).
  { intros out Hout H1 H2. exists [], out.
    repeat split; auto; simpl; try lia. unfold offers. simpl. lia. }
  destruct seed as [s|]; [|apply (Hnil (Raised ValueError)); easy].
  destruct (String.length s =? 0) eqn:Es.
  { apply (Hnil (Raised ValueError)); [easy| |];
      unfold generator, generator_fuel; rewrite Es; reflexivity. }
  destruct (encode tokenizer s) as [|t ids] eqn:Ee.
  { destruct fuel as [|fuel]; [lia|].
    apply (Hnil (Raised IndexError)); [easy| |];
      unfold generator, generator_fuel; rewrite Es, beam_search_empty; auto. }
  assert (Hne : encode tokenizer s <> []) by (rewrite Ee; discriminate).
  assert (Hm : Z.to_nat (max_len - Z.of_nat (length (encode tokenizer s)))
               < Z.to_nat max_len) by (rewrite Ee; simpl length; lia).
  assert (Hstable :
            generator tokenizer model beam_width max_len (Some s) =
            generator_fuel tokenizer model beam_width max_len fuel (Some s)).
  { unfold generator.
    rewrite (@generator_fuel_stable tokenizer model beam_width max_len
               (Z.to_nat max_len) (S (Z.to_nat max_len))); [|lia|lia].
    symmetry. apply generator_fuel_stable; lia. }
  rewrite Hstable. clear Hstable Hnil.
  pose proof (@beam_search_shape tokenizer model beam_width max_len fuel s Hne)
    as Hshape.
  unfold generator_fuel. rewrite Es.
  destruct (beam_search _ _ _ _ fuel s) as [log [g|e|]] eqn:Hs.
  - destruct Hshape as (Hg & _ & Hb & Hlog).
    assert (Hcount : S (length log) <= Z.to_nat max_len).
    { destruct Hb as [->|Hb]; [simpl; lia|]. rewrite Ee in Hb.
      simpl length in Hb. lia. }
    assert (Hoff : offers tokenizer log
                   <= Z.to_nat max_len * Z.to_nat beam_width
                      * vocab_size tokenizer).
    { pose proof (offers_le tokenizer Hlog) as Ho.
      rewrite <- Nat.mul_assoc.
      eapply Nat.le_trans; [exact Ho|].
      apply Nat.mul_le_mono_r. lia. }
    destruct (strip_all tokenizer g) as [e|stripped];
      eexists; eexists; repeat split; eauto; discriminate.
  - destruct Hshape as (_ & Hcount & Hlog & _).
    rewrite Ee in Hcount. simpl length in Hcount.
    exists log, (Raised e). repeat split; auto; [discriminate|lia|].
    pose proof (offers_le tokenizer Hlog) as Ho.
    rewrite <- Nat.mul_assoc.
    eapply Nat.le_trans; [exact Ho|].
    apply Nat.mul_le_mono_r. lia.
  - exfalso.
    apply (@beam_search_terminates tokenizer model beam_width max_len fuel s);
      [lia|]. rewrite Hs. reflexivity.
Qed.

Lemma generator_terminates_witness :
  exists log out,
    generator_fuel char_tokenizer skewed_model 2 3 3 (Some "ab"%string)
    = (log, out) /\
    out <> OutOfFuel /\
    generator char_tokenizer skewed_model 2 3 (Some "ab"%string)
    = (log, out) /\
    Forall (pass_shape 2 3) log /\
    S (length log) <= Z.to_nat 3 /\
    offers char_tokenizer log
    <= Z.to_nat 3 * Z.to_nat 2 * vocab_size char_tokenizer.
Proof.
  apply (@generator_terminates char_tokenizer skewed_model 2 3
           (Some "ab"%string) 3); [lia|lia|simpl; lia].
Defined.


(** The first pass on an active seed raises when the vocabulary has fewer
    than [beam_width] ids, none of negative probability. *)
Lemma generate_loop_first_raises (tokenizer : Tokenizer) (model : Model)
    (beam_width max_len : Z) (fuel : nat) (ids : list nat) :
  non_negative tokenizer model ->
  (Z.of_nat (vocab_size tokenizer) < beam_width)%Z ->
  active_cond tokenizer max_len ids ->
  generate_loop tokenizer model beam_width max_len (S fuel)
                [ids] [0%R] [] []
  = ([iterate tokenizer model beam_width [ids] [0%R]], Raised TypeError).
Proof.
  intros Hpos Hbw (t & Ht & Hneq & Hlen).
  rewrite (@generate_loop_step tokenizer model beam_width max_len _ _ _ _ _
             [ids] [0%R] []); [|simpl|discriminate|simpl; lia].
  - cbv zeta. rewrite iterate_single_raises by assumption. reflexivity.
  - rewrite Ht. apply Nat.eqb_neq in Hneq. apply Z.ltb_lt in Hlen.
    rewrite Hneq, Hlen. reflexivity.
Qed.


Lemma skewed_non_negative : non_negative char_tokenizer skewed_model.
Proof.
  intros batch_x b pos u _. simpl. destruct u as [|[|[|u]]]; lra.
Qed.




(** C6, as the code has it.  The token sequence of a returned string,
    before its end-of-sequence token is stripped, is no longer than
    [max_len] or than the tokenization of the seed, whichever is larger. *)
Theorem returned_length_bound (tokenizer : Tokenizer) (model : Model)
    (beam_width max_len : Z) (seed : option string)
    (log : list iteration) (out : list string) :
  generator tokenizer model beam_width max_len seed = (log, Returned out) ->
  exists s g stripped,
    seed = Some s /\
    beam_search tokenizer model beam_width max_len (S (Z.to_nat max_len)) s
    = (log, Returned g) /\
    strip_all tokenizer g = inr stripped /\
    out = convert_ids_to_sentences tokenizer stripped /\
    Forall (fun ids =>
              (Z.of_nat (length ids)
               <= Z.max max_len (Z.of_nat (length (encode tokenizer s))))%Z)
           g.
Proof.
  intros Hrun. apply generator_fuel_returned in Hrun.
  destruct Hrun as (s & g & stripped & -> & _ & Hsearch & Hstrip & ->).
  exists s, g, stripped. repeat split; auto.
  destruct (encode tokenizer s) as [|t ids] eqn:Ee.
  { rewrite beam_search_empty in Hsearch by exact Ee. discriminate. }
  assert (Hne : encode tokenizer s <> []) by (rewrite Ee; discriminate).
  pose proof (@beam_search_shape tokenizer model beam_width max_len
                (S (Z.to_nat max_len)) s Hne) as Hshape.
  rewrite Hsearch, Ee in Hshape. destruct Hshape as (Hg & _).
  eapply Forall_impl; [|exact Hg]. simpl. tauto.
Qed.

Lemma returned_length_bound_witness :
  exists s g stripped,
    Some "aaa"%string = Some s /\
    beam_search char_tokenizer uniform_model 1 2 (S (Z.to_nat 2)) s
    = ([], Returned g) /\
    strip_all char_tokenizer g = inr stripped /\
    ["aaa"%string] = convert_ids_to_sentences char_tokenizer stripped /\
    Forall (fun ids =>
              (Z.of_nat (length ids)
               <= Z.max 2 (Z.of_nat (length (encode char_tokenizer s))))%Z)
           g.
Proof.
  apply (@returned_length_bound char_tokenizer uniform_model 1 2
           (Some "aaa"%string) [] ["aaa"%string]).
  reflexivity.
Defined.

(** C6, as stated, fails on a seed of three tokens with [max_len = 2]: the
    seed is returned as it is, with its three tokens. *)
Lemma long_seed_exceeds_max_len :
  generator char_tokenizer uniform_model 1 2 (Some "aaa"%string)
  = ([], Returned ["aaa"%string]) /\
  ~ (forall log g,
       beam_search char_tokenizer uniform_model 1 2 (S (Z.to_nat 2))
                   "aaa"%string = (log, Returned g) ->
       Forall (fun ids => (Z.of_nat (length ids) <= 2)%Z) g).
Proof.
  split; [reflexivity|].
  intros H. specialize (H [] [[2; 2; 2]] eq_refl).
  inversion H as [|? ? Hlen _]. simpl in Hlen. lia.
Qed.

(** C3, as the code has it.  An empty or missing seed text raises
    [ValueError] and a seed with an empty tokenization raises [IndexError],
    both before the network is called.  A non-positive [beam_width] or
    [max_len] raises nothing: on a seed with a non-empty tokenization the
    decoder returns, without calling the network, no string when
    [beam_width <= 0], and the seed alone (its end-of-sequence token
    stripped) when [beam_width >= 1] and [max_len <= 0]. *)
Theorem generator_validation (tokenizer : Tokenizer) (model : Model)
    (beam_width max_len : Z) (s : string) :
  generator tokenizer model beam_width max_len None
  = ([], Raised ValueError) /\
  generator tokenizer model beam_width max_len (Some EmptyString)
  = ([], Raised ValueError) /\
  (String.length s <> 0 ->
   (encode tokenizer s = [] ->
    generator tokenizer model beam_width max_len (Some s)
    = ([], Raised IndexError)) /\
   (encode tokenizer s <> [] -> (beam_width <= 0)%Z ->
    generator tokenizer model beam_width max_len (Some s)
    = ([], Returned [])) /\
   (forall stripped,
      strip_eos tokenizer (encode tokenizer s) = inr stripped ->
      (1 <= beam_width)%Z -> (max_len <= 0)%Z ->
      generator tokenizer model beam_width max_len (Some s)
      = ([], Returned [decode tokenizer stripped]))).
Proof.
  split; [reflexivity|]. split; [reflexivity|].
  intros Hs. apply Nat.eqb_neq in Hs.
  unfold generator, generator_fuel. rewrite Hs.
  split; [|split].
  - intros He. rewrite beam_search_empty by exact He. reflexivity.
  - intros He Hbw. unfold beam_search. simpl.
    destruct (py_last (encode tokenizer s)) as [t|] eqn:El;
      [|apply py_last_none in El; congruence].
    assert (Hg : (0 <? beam_width)%Z = false) by (apply Z.ltb_ge; lia).
    assert (Hr : (beam_width <=? 0)%Z = true) by (apply Z.leb_le; lia).
    rewrite Hg.
    destruct (negb (t =? eos_token_id tokenizer)
              && (Z.of_nat (length (encode tokenizer s)) <? max_len)%Z);
      cbn; rewrite ?Hr; reflexivity.
  - intros stripped Hstrip Hbw Hml. unfold beam_search. simpl.
    unfold strip_eos in Hstrip.
    destruct (py_last (encode tokenizer s)) as [t|] eqn:El; [|discriminate].
    assert (Hl : (Z.of_nat (length (encode tokenizer s)) <? max_len)%Z
                 = false) by (apply Z.ltb_ge; lia).
    assert (Hg : (0 <? beam_width)%Z = true) by (apply Z.ltb_lt; lia).
    rewrite Hl, andb_false_r, Hg. simpl.
    unfold strip_eos. rewrite El.
    destruct (t =? eos_token_id tokenizer);
      injection Hstrip as <-; reflexivity.
Qed.

Lemma generator_validation_witness :
  generator char_tokenizer uniform_model 1 0 (Some "ab"%string)
  = ([], Returned ["ab"%string]).
Proof.
  destruct (@generator_validation char_tokenizer uniform_model 1 0
              "ab"%string) as (_ & _ & H).
  destruct H as (_ & _ & H); [simpl; lia|].
  apply (H [2; 3]); [reflexivity|lia|lia].
Defined.

(** C3, as stated, fails: with [beam_width = 0], and with [max_len = 0],
    the decoder raises nothing and returns. *)
Lemma non_positive_arguments_return :
  generator char_tokenizer uniform_model 0 5 (Some "a"%string)
  = ([], Returned []) /\
  generator char_tokenizer uniform_model 1 0 (Some "a"%string)
  = ([], Returned ["a"%string]) /\
  ~ (forall beam_width max_len : Z,
       (beam_width <= 0 \/ max_len <= 0)%Z ->
       exists log e,
         generator char_tokenizer uniform_model beam_width max_len
                   (Some "a"%string) = (log, Raised e)).
Proof.
  split; [reflexivity|]. split; [reflexivity|].
  intros H. destruct (H 0%Z 5%Z) as (log & e & He); [lia|].
  discriminate He.
Qed.

(** ** Post-processing and the end-of-sequence token *)

Lemma strip_eos_spec (tokenizer : Tokenizer) (ids stripped : list nat) :
  strip_eos tokenizer ids = inr stripped -> stripped_of tokenizer ids stripped.
Proof.
  unfold strip_eos, stripped_of.
  destruct (py_last ids) as [t|] eqn:E; [|discriminate].
  destruct (t =? eos_token_id tokenizer) eqn:Et; intros H; injection H as <-.
  - apply Nat.eqb_eq in Et. subst t. left. split; [reflexivity|].
    apply py_last_some, E.
  - apply Nat.eqb_neq in Et. right. split; [congruence|reflexivity].
Qed.

Lemma strip_all_spec (tokenizer : Tokenizer) (g : list (list nat)) :
  forall stripped,
    strip_all tokenizer g = inr stripped ->
    Forall2 (stripped_of tokenizer) g stripped.
Proof.
  induction g as [|ids g IH]; intros stripped; simpl.
  - intros H. injection H as <-. constructor.
  - destruct (strip_eos tokenizer ids) as [|st] eqn:E; [discriminate|].
    destruct (strip_all tokenizer g) as [|sts]; [discriminate|].
    intros H. injection H as <-. constructor; auto.
    apply strip_eos_spec, E.
Qed.

Lemma stripped_single_eos (tokenizer : Tokenizer) (ids stripped : list nat) :
  single_eos tokenizer ids -> stripped_of tokenizer ids stripped ->
  py_last stripped <> Some (eos_token_id tokenizer) /\
  (stripped <> [] -> strip_eos tokenizer stripped = inr stripped).
Proof.
  unfold single_eos. intros Hs Hst.
  assert (Hl : py_last stripped <> Some (eos_token_id tokenizer)).
  { destruct Hst as [[Hlast ->]|[Hl ->]]; [|exact Hl].
    rewrite removelast_last in Hs. intros H. apply Hs. auto. }
  split; [exact Hl|]. intros Hne. unfold strip_eos.
  destruct (py_last stripped) as [t|] eqn:E.
  - destruct (t =? eos_token_id tokenizer) eqn:Et; [|reflexivity].
    apply Nat.eqb_eq in Et. congruence.
  - apply py_last_none in E. congruence.
Qed.

Lemma generate_loop_single_eos (tokenizer : Tokenizer) (model : Model)
    (beam_width max_len : Z) (fuel : nat) (all_ids : list (list nat))
    (all_ids_prob : list R) (g : list (list nat))
    (log log' : list iteration) (g' : list (list nat)) :
  Forall (single_eos tokenizer) all_ids ->
  Forall (single_eos tokenizer) g ->
  generate_loop tokenizer model beam_width max_len fuel all_ids all_ids_prob
                g log = (log', Returned g') ->
  Forall (single_eos tokenizer) g'.
Proof.
  intros Ha Hg Hrun.
  assert (H : forall r,
            snd (generate_loop tokenizer model beam_width max_len fuel
                               all_ids all_ids_prob g log) = Returned r ->
            Forall (single_eos tokenizer) r);
    [|apply H; rewrite Hrun; reflexivity].
  apply generate_loop_rule with
    (Inv := fun all_ids _ g _ =>
              Forall (single_eos tokenizer) all_ids /\
              Forall (single_eos tokenizer) g)
    (Post := fun res => forall r, snd res = Returned r ->
                          Forall (single_eos tokenizer) r);
    cbv beta; simpl snd; try discriminate; auto.
  - intros ids0 pr0 g0 _ a ap r0 [HI1 HI2] HP _ r Hr. injection Hr as <-.
    apply partition_nil_spec in HP.
    destruct HP as (_ & _ & _ & _ & (gn & -> & Hgn) & _).
    apply Forall_app. split; [exact HI2|].
    rewrite Forall_forall in *. auto.
  - intros ids0 pr0 g0 _ a ap r0 [HI1 HI2] HP Hne _ it _. subst it.
    apply partition_nil_spec in HP.
    destruct HP as (_ & _ & Hact & _ & (gn & -> & Hgn) & _). split.
    + apply Forall_forall. intros child Hc.
      apply expand_parent in Hc; [|exact Hne].
      destruct Hc as (parent & v & -> & Hp).
      destruct (Hact _ Hp) as [_ (t & Ht & Hneq & _)].
      unfold single_eos. rewrite removelast_last, Ht.
      intros [_ H]. congruence.
    + apply Forall_app. split; [exact HI2|].
      rewrite Forall_forall in *. auto.
Qed.

(** C9, as the code has it.  Post-processing removes exactly one trailing
    end-of-sequence token when there is one.  When the tokenization of the
    seed does not end with two end-of-sequence tokens, no returned sequence
    ends with the end-of-sequence token afterwards, and stripping a returned
    sequence that is not empty a second time leaves it as it is. *)
Theorem strip_once (tokenizer : Tokenizer) (model : Model)
    (beam_width max_len : Z) (s : string)
    (log : list iteration) (out : list string) :
  generator tokenizer model beam_width max_len (Some s)
  = (log, Returned out) ->
  exists g stripped,
    beam_search tokenizer model beam_width max_len (S (Z.to_nat max_len)) s
    = (log, Returned g) /\
    strip_all tokenizer g = inr stripped /\
    out = convert_ids_to_sentences tokenizer stripped /\
    Forall2 (stripped_of tokenizer) g stripped /\
    (single_eos tokenizer (encode tokenizer s) ->
     Forall (fun ids =>
               py_last ids <> Some (eos_token_id tokenizer) /\
               (ids <> [] -> strip_eos tokenizer ids = inr ids))
            stripped).
Proof.
  intros Hrun. unfold generator in Hrun.
  apply generator_fuel_returned in Hrun.
  destruct Hrun as (s' & g & stripped & Hs & _ & Hsearch & Hstrip & ->).
  injection Hs as <-.
  exists g, stripped. repeat split; auto.
  - apply strip_all_spec, Hstrip.
  - intros Hseed. apply strip_all_spec in Hstrip.
    unfold beam_search in Hsearch.
    apply generate_loop_single_eos in Hsearch;
      [|constructor; [exact Hseed|constructor]|constructor].
    clear - Hstrip Hsearch.
    induction Hstrip as [|ids st g stripped Hst _ IH]; [constructor|].
    inversion Hsearch; subst. constructor; auto.
    eapply stripped_single_eos; eauto.
Qed.

Lemma strip_once_witness :
  exists g stripped,
    beam_search char_tokenizer uniform_model 1 5 (S (Z.to_nat 5))
                "a$"%string = ([], Returned g) /\
    strip_all char_tokenizer g = inr stripped /\
    ["a"%string] = convert_ids_to_sentences char_tokenizer stripped /\
    Forall2 (stripped_of char_tokenizer) g stripped /\
    Forall (fun ids =>
              py_last ids <> Some (eos_token_id char_tokenizer) /\
              (ids <> [] -> strip_eos char_tokenizer ids = inr ids))
           stripped.
Proof.
  destruct (@strip_once char_tokenizer uniform_model 1 5 "a$"%string []
              ["a"%string] eq_refl)
    as (g & stripped & H1 & H2 & H3 & H4 & H5).
  exists g, stripped. repeat split; auto.
  apply H5. unfold single_eos. simpl. intros [_ H]. discriminate H.
Defined.

(** C9, as stated, fails on a seed that ends with two end-of-sequence
    tokens: it is returned with one of them. *)
Lemma double_eos_seed_keeps_eos :
  ~ (forall log g stripped,
       beam_search char_tokenizer uniform_model 1 5 (S (Z.to_nat 5))
                   "a$$"%string = (log, Returned g) ->
       strip_all char_tokenizer g = inr stripped ->
       Forall (fun ids => py_last ids <> Some (eos_token_id char_tokenizer))
              stripped).
Proof.
  intros H. specialize (H [] [[2; 1; 1]] [[2; 1]] eq_refl eq_refl).
  inversion H as [|? ? Hl _]. apply Hl. reflexivity.
Qed.

(** ** Properties of the top-k buffer *)

Lemma offer_evicts_min (buf : list entry) (v : nat) (p : R) :
  buf <> [] -> (value (nth 0 buf no_entry) <= p)%R ->
  offer (length buf) buf v p
  = ins {| vocab_id := v; value := p; is_tensor := true |} (tl buf).
Proof.
  intros Hne Hp. rewrite offer_ins. destruct buf as [|x buf]; [congruence|].
  simpl in *. apply Rltb_false in Hp. rewrite Hp. reflexivity.
Qed.

(** C5, as the code has it.  The buffer of a candidate, which starts as
    [beam_width] sentinels, is in ascending order of probability after
    every offered id.  An offered probability below the minimum of the
    buffer is discarded and leaves the buffer as it is; one that is equal to
    the minimum, or above it, evicts the entry of the minimum and is
    inserted. *)
Theorem top_k_buffer (beam_width eos : nat) (pred : nat -> R) (n : nat) :
  let buf := top_k beam_width eos n pred in
  top_k beam_width eos 0 pred
  = repeat {| vocab_id := eos; value := 0; is_tensor := false |} beam_width /\
  length buf = beam_width /\ ascending buf /\
  top_k beam_width eos (S n) pred = offer beam_width buf n (pred n) /\
  ((pred n < value (nth 0 buf no_entry))%R ->
   offer beam_width buf n (pred n) = buf) /\
  (buf <> [] -> (value (nth 0 buf no_entry) <= pred n)%R ->
   offer beam_width buf n (pred n)
   = ins {| vocab_id := n; value := pred n; is_tensor := true |} (tl buf)).
Proof.
  simpl. pose proof (length_top_k beam_width eos n pred) as Hl.
  split; [reflexivity|].
  split; [exact Hl|]. split; [apply ascending_top_k|].
  split; [apply top_k_succ|]. split.
  - intros H. rewrite <- Hl at 1. apply offer_below_min, H.
  - intros Hne H. rewrite <- Hl at 1. apply offer_evicts_min; assumption.
Qed.

Lemma top_k_buffer_witness :
  offer 1 (top_k 1 1 1 (fun _ => (1 / 2)%R)) 1 (1 / 2)
  = ins {| vocab_id := 1; value := 1 / 2; is_tensor := true |}
        (tl (top_k 1 1 1 (fun _ => (1 / 2)%R))).
Proof.
  apply (@top_k_buffer 1 1 (fun _ => (1 / 2)%R) 1).
  - unfold top_k, sentinels, offer, find_level, shift_down. simpl.
    decide_Rltb. simpl. discriminate.
  - unfold top_k, sentinels, offer, find_level, shift_down. simpl.
    decide_Rltb. simpl. lra.
Defined.

(** C5, as stated, fails: a probability equal to the minimum of the buffer
    is not discarded.  With one slot, id 1 offered with the probability 1/2
    of id 0 takes the slot. *)
Lemma equal_to_minimum_not_discarded :
  ~ (forall buf v p,
       buf = top_k 1 1 1 (fun _ => (1 / 2)%R) ->
       ~ (value (nth 0 buf no_entry) < p)%R ->
       offer 1 buf v p = buf).
Proof.
  intros H. specialize (H _ 1 (1 / 2)%R eq_refl). revert H.
  unfold top_k, sentinels, offer, find_level, shift_down. simpl.
  decide_Rltb. simpl. decide_Rltb. simpl.
  intros Hc. assert (Hn : ~ (1 / 2 < 1 / 2)%R) by lra.
  specialize (Hc Hn). discriminate Hc.
Qed.

(** C4, as the code has it.  Ties are broken toward the higher vocabulary
    id: in every pass and for every active candidate, of two ids of equal
    probability the higher one is in the top-k buffer whenever the lower
    one is; when only one of them can be retained it is the higher. *)
Theorem ties_keep_higher_id (tokenizer : Tokenizer) (model : Model)
    (beam_width max_len : Z) (seed : option string)
    (it : iteration) (b i j : nat) :
  In it (fst (generator tokenizer model beam_width max_len seed)) ->
  b < length (it_active_ids it) ->
  let P := model (it_batch_x it) b
                 (length (nth b (it_active_ids it) []) - 1) in
  i < j -> j < vocab_size tokenizer -> P i = P j ->
  In {| vocab_id := i; value := P i; is_tensor := true |}
     (nth b (it_top_value it) []) ->
  In {| vocab_id := j; value := P j; is_tensor := true |}
     (nth b (it_top_value it) []).
Proof.
  intros Hit.
  pose proof (@generator_log tokenizer model beam_width max_len seed
    (fun it => forall b i j,
       b < length (it_active_ids it) ->
       let P := model (it_batch_x it) b
                      (length (nth b (it_active_ids it) []) - 1) in
       i < j -> j < vocab_size tokenizer -> P i = P j ->
       In {| vocab_id := i; value := P i; is_tensor := true |}
          (nth b (it_top_value it) []) ->
       In {| vocab_id := j; value := P j; is_tensor := true |}
          (nth b (it_top_value it) []))) as H.
  rewrite Forall_forall in H. apply H; [|exact Hit].
  clear. intros a ap _ _ b i j Hb. simpl.
  rewrite nth_top_values by exact Hb.
  intros Hij Hj Heq. apply top_k_ties; auto.
Qed.

Lemma uniform_top_1 :
  top_k 1 1 4 (uniform_model [[2]] 0 0)
  = [{| vocab_id := 3; value := 1 / 4; is_tensor := true |}].
Proof.
  unfold top_k, sentinels, offer, find_level, shift_down, uniform_model.
  simpl. repeat (decide_Rltb; simpl). reflexivity.
Qed.

Lemma uniform_top_2 (batch_x : list (list nat)) (b pos : nat) :
  top_k 2 1 4 (uniform_model batch_x b pos)
  = [{| vocab_id := 2; value := 1 / 4; is_tensor := true |};
     {| vocab_id := 3; value := 1 / 4; is_tensor := true |}].
Proof.
  unfold top_k, sentinels, offer, find_level, shift_down, uniform_model.
  simpl. repeat (decide_Rltb; simpl). reflexivity.
Qed.

Lemma ties_keep_higher_id_witness :
  let it := iterate char_tokenizer uniform_model 2 [[2]] [0%R] in
  In {| vocab_id := 3; value := 1 / 4; is_tensor := true |}
     (nth 0 (it_top_value it) []).
Proof.
  intros it.
  assert (H : In it (fst (generator char_tokenizer uniform_model 2 2
                                    (Some "a"%string)))).
  { apply (@generator_first_pass char_tokenizer uniform_model 2 2
             "a"%string); [lia|simpl; lia|].
    exists 2. split; [reflexivity|]. split; [discriminate|simpl; lia]. }
  assert (Hb : 0 < length (it_active_ids it)) by (simpl; lia).
  assert (Hij : 2 < 3) by lia.
  assert (Hj : 3 < vocab_size char_tokenizer) by (simpl; lia).
  assert (Hin : In {| vocab_id := 2; value := 1 / 4; is_tensor := true |}
                   (nth 0 (it_top_value it) [])).
  { unfold it, iterate. simpl it_top_value. unfold top_values.
    change (Z.to_nat 2) with 2. simpl map.
    change (eos_token_id char_tokenizer) with 1.
    change (vocab_size char_tokenizer) with 4.
    change (top_k 2 1 4 (fun _ : nat => (1 / 4)%R))
      with (top_k 2 1 4 (uniform_model [] 0 0)).
    rewrite uniform_top_2. left. reflexivity. }
  exact (@ties_keep_higher_id char_tokenizer uniform_model 2 2
           (Some "a"%string) it 0 2 3 H Hb Hij Hj eq_refl Hin).
Defined.

(** C4, as stated, fails: of the four ids offered with probability 1/4 to a
    buffer of one slot, the highest is retained, not a lower one. *)
Lemma tie_retains_higher_id :
  let buf := top_k 1 1 4 (uniform_model [[2]] 0 0) in
  uniform_model [[2]] 0 0 2 = uniform_model [[2]] 0 0 3 /\
  In {| vocab_id := 3; value := uniform_model [[2]] 0 0 3;
        is_tensor := true |} buf /\
  ~ In {| vocab_id := 2; value := uniform_model [[2]] 0 0 2;
          is_tensor := true |} buf.
Proof.
  cbv zeta. rewrite uniform_top_1. simpl.
  split; [reflexivity|]. split; [left; reflexivity|].
  intros [H|[]]. discriminate H.
Qed.

(** ** Scores *)

Lemma ln_nonpos (x : R) : (0 < x <= 1)%R -> (ln x <= 0)%R.
Proof.
  intros [H0 H1]. destruct (Rle_lt_or_eq_dec _ _ H1) as [Hlt | ->].
  - rewrite <- ln_1. left. apply ln_increasing; assumption.
  - rewrite ln_1. lra.
Qed.

Lemma nth_bounded (l : list R) (i : nat) (lo hi : R) :
  (lo <= 0 <= hi)%R -> Forall (fun s => (lo <= s <= hi)%R) l ->
  (lo <= nth i l 0 <= hi)%R.
Proof.
  intros H0 Hl. destruct (Nat.lt_ge_cases i (length l)) as [Hi|Hi].
  - rewrite Forall_forall in Hl. apply Hl, nth_In, Hi.
  - rewrite nth_overflow by exact Hi. exact H0.
Qed.

(** The arithmetic of the reals is growing and monotone. *)
Lemma exact_growing (model : Model) :
  neg_log_add model = exact_neg_log_add -> growing model.
Proof.
  intros E p s Hp. rewrite E. unfold exact_neg_log_add.
  pose proof (ln_nonpos Hp). lra.
Qed.

Section ScoreFacts.
Variable tokenizer : Tokenizer.
Variable model : Model.
Variables beam_width max_len : Z.

Hypothesis model_le_1 :
  forall batch_x b pos u,
    u < vocab_size tokenizer -> (model batch_x b pos u <= 1)%R.

Hypothesis model_growing : growing model.

Lemma big_positive : (0 <= 0 <= big)%R.
Proof. unfold big. lra. Qed.

Lemma iterate_scores (a : list (list nat)) (ap : list R) :
  Forall (fun s => (0 <= s <= big)%R) ap ->
  scores_grow tokenizer model (iterate tokenizer model beam_width a ap) /\
  Forall (fun s => (0 <= s <= big)%R)
         (map c_value
              (it_final_top_value (iterate tokenizer model beam_width a ap))).
Proof.
  intros Hap.
  assert (Hc : forall c,
            In c (it_final_top_value
                    (iterate tokenizer model beam_width a ap)) ->
            let parent_score := nth (beam_id c) ap 0%R in
            (0 <= parent_score)%R /\ (parent_score <= c_value c)%R /\
            (c_value c <= big)%R /\
            (c = fallback (eos_token_id tokenizer) \/
             exists e,
               In e (nth (beam_id c)
                         (it_top_value
                            (iterate tokenizer model beam_width a ap)) []) /\
               (0 < value e <= 1)%R /\
               c_vocab_id c = vocab_id e /\
               c_value c = neg_log_add model (value e) parent_score)).
  { intros c Hin.
    pose proof (nth_bounded (beam_id c) big_positive Hap) as Hp.
    apply iterate_final_good in Hin.
    destruct Hin as [->|[[Hb (e & He & _ & Hpos & Hv & Hval)] Hlt]].
    - simpl in *. repeat split; try lra. left. reflexivity.
    - simpl in Hb, He. rewrite length_top_values in Hb.
      assert (Hle : (value e <= 1)%R).
      { rewrite nth_top_values in He by exact Hb.
        apply in_top_k in He. destruct He as [->|(Hu & He & _)].
        - simpl. lra.
        - rewrite He. apply model_le_1. exact Hu. }
      pose proof (model_growing (nth (beam_id c) ap 0%R) (conj Hpos Hle))
        as Hgrow.
      simpl. rewrite <- Hval in Hgrow. repeat split; try lra.
      right. exists e. simpl. repeat split; auto; lra. }
  split.
  - intros c Hin. destruct (Hc c Hin) as (H1 & H2 & _ & H4).
    simpl in *. auto.
  - apply Forall_forall. intros s Hs. apply in_map_iff in Hs.
    destruct Hs as (c & <- & Hin).
    destruct (Hc c Hin) as (H1 & H2 & H3 & _). simpl in *. lra.
Qed.

Lemma generate_loop_scores (fuel : nat) (all_ids : list (list nat))
    (all_ids_prob : list R) (g : list (list nat)) (log : list iteration) :
  Forall (fun s => (0 <= s <= big)%R) all_ids_prob ->
  Forall (scores_grow tokenizer model) log ->
  (log = [] -> Forall (fun s => s = 0%R) all_ids_prob) ->
  (forall it, hd_error log = Some it ->
              Forall (fun s => s = 0%R) (it_active_ids_prob it)) ->
  let log' := fst (generate_loop tokenizer model beam_width max_len fuel
                                 all_ids all_ids_prob g log) in
  Forall (scores_grow tokenizer model) log' /\
  (forall it, hd_error log' = Some it ->
              Forall (fun s => s = 0%R) (it_active_ids_prob it)).
Proof.
  intros H1 H2 H3 H4.
  assert (Hstep : forall ids0 pr0 g0 log0 a ap g',
    Forall (fun s => (0 <= s <= big)%R) pr0 /\
    Forall (scores_grow tokenizer model) log0 /\
    (log0 = [] -> Forall (fun s => s = 0%R) pr0) /\
    (forall it, hd_error log0 = Some it ->
                Forall (fun s => s = 0%R) (it_active_ids_prob it)) ->
    partition tokenizer beam_width max_len (combine ids0 pr0) [] [] g0
    = inr (a, ap, g') ->
    let it := iterate tokenizer model beam_width a ap in
    Forall (fun s => (0 <= s <= big)%R)
           (map c_value (it_final_top_value it)) /\
    Forall (scores_grow tokenizer model) (log0 ++ [it]) /\
    (log0 ++ [it] = [] ->
     Forall (fun s => s = 0%R) (map c_value (it_final_top_value it))) /\
    (forall it', hd_error (log0 ++ [it]) = Some it' ->
                 Forall (fun s => s = 0%R) (it_active_ids_prob it'))).
  { intros ids0 pr0 g0 log0 a ap g' (I1 & I2 & I3 & I4) HP it. subst it.
    apply partition_nil_spec in HP. destruct HP as (_ & _ & _ & Hap & _).
    assert (Hap' : Forall (fun s => (0 <= s <= big)%R) ap).
    { rewrite Forall_forall in *. auto. }
    destruct (iterate_scores a Hap') as [Hs Hb].
    split; [exact Hb|]. split.
    { apply Forall_app. split; [exact I2|].
      constructor; [exact Hs|constructor]. }
    split.
    { intros Hnil. destruct log0; discriminate. }
    intros it Hit. destruct log0 as [|it0 log0].
    - simpl in Hit. injection Hit as <-. simpl.
      specialize (I3 eq_refl). rewrite Forall_forall in *. auto.
    - simpl in Hit. apply I4. exact Hit. }
  apply generate_loop_rule with
    (Inv := fun _ probs _ log =>
       Forall (fun s => (0 <= s <= big)%R) probs /\
       Forall (scores_grow tokenizer model) log /\
       (log = [] -> Forall (fun s => s = 0%R) probs) /\
       (forall it, hd_error log = Some it ->
                   Forall (fun s => s = 0%R) (it_active_ids_prob it)))
    (Post := fun res =>
       Forall (scores_grow tokenizer model) (fst res) /\
       (forall it, hd_error (fst res) = Some it ->
                   Forall (fun s => s = 0%R) (it_active_ids_prob it)));
    cbv beta; simpl fst; try tauto.
  - intros ids0 pr0 g0 log0 a ap g' e HI HP _ _ it _. subst it.
    destruct (Hstep _ _ _ _ _ _ _ HI HP) as (_ & Ha & _ & Hb). auto.
  - intros ids0 pr0 g0 log0 a ap g' HI HP _ _ it _. subst it.
    exact (Hstep _ _ _ _ _ _ _ HI HP).
Qed.

End ScoreFacts.

Lemma chained_snoc (log : list iteration) (it' : iteration) :
  chained log ->
  (forall it, py_last log = Some it -> carried it it') ->
  chained (log ++ [it']).
Proof.
  induction log as [|x log IH]; intros Hc Hl; [exact I|].
  destruct log as [|y log].
  - simpl. split; [apply Hl; reflexivity|exact I].
  - destruct Hc as [Hxy Hc].
    change (carried x y /\ chained ((y :: log) ++ [it'])).
    split; [exact Hxy|]. apply IH; [exact Hc|exact Hl].
Qed.

Lemma in_combine_map (A B C : Type) (f : A -> B) (g : A -> C)
    (l : list A) (b : B) (c : C) :
  In (b, c) (combine (map f l) (map g l)) ->
  exists a, In a l /\ b = f a /\ c = g a.
Proof.
  induction l as [|a l IH]; simpl; [contradiction|].
  intros [H|H].
  - injection H as <- <-. eauto.
  - destruct (IH H) as (a' & Ha & Hb & Hc). eauto.
Qed.

(** The passes of a run follow one another along the lineages. *)
Lemma generate_loop_chained (tokenizer : Tokenizer) (model : Model)
    (beam_width max_len : Z) (fuel : nat) (all_ids : list (list nat))
    (all_ids_prob : list R) (g : list (list nat)) :
  chained (fst (generate_loop tokenizer model beam_width max_len fuel
                              all_ids all_ids_prob g [])).
Proof.
  assert (Hstep : forall ids0 pr0 g0 log0 a ap g',
    chained log0 /\
    (forall it, py_last log0 = Some it ->
       forall ids s, In (ids, s) (combine ids0 pr0) ->
         exists c, In c (it_final_top_value it) /\
                   ids = expand (it_active_ids it) c /\ s = c_value c) ->
    partition tokenizer beam_width max_len (combine ids0 pr0) [] [] g0
    = inr (a, ap, g') ->
    chained (log0 ++ [iterate tokenizer model beam_width a ap])).
  { intros ids0 pr0 g0 log0 a ap g' [Hc Hl] HP.
    apply partition_spec in HP.
    destruct HP as (an & apn & gn & Ha & Hap & _ & _ & _ & Hin & _).
    simpl in Ha, Hap. subst an apn.
    apply chained_snoc; [exact Hc|].
    intros it Hit ids s Hs. apply (Hl it Hit). apply Hin, Hs. }
  apply generate_loop_rule with
    (Inv := fun all_ids probs _ log =>
       chained log /\
       forall it, py_last log = Some it ->
         forall ids s, In (ids, s) (combine all_ids probs) ->
           exists c, In c (it_final_top_value it) /\
                     ids = expand (it_active_ids it) c /\ s = c_value c)
    (Post := fun res => chained (fst res)); cbv beta; simpl fst; try tauto.
  - intros ids0 pr0 g0 log0 a ap g' e HI HP _ _ it _. subst it.
    eapply Hstep; eauto.
  - intros ids0 pr0 g0 log0 a ap g' HI HP _ _ it _. subst it. split.
    + eapply Hstep; eauto.
    + intros it Hit ids s Hs. rewrite py_last_app in Hit.
      injection Hit as <-. apply in_combine_map in Hs.
      destruct Hs as (c & Hc' & -> & ->). exists c. auto.
  - split; [exact I|]. discriminate.
Qed.

(** C2.  The score of the seed is 0, and every candidate made by an
    expansion scores at least as much as the candidate it extends, whose
    score is at least 0: it extends its parent by an id of probability [p]
    in (0,1] and its score is the value of [-log p + parent score], which
    is not below the score of the parent, or it is the fallback of a
    selection round that found no option and has the score 999999999,
    which no score exceeds.  From pass to pass the candidates keep the
    scores they were given, so that scores do not decrease along a
    lineage.  The arithmetic of the expression is that of the network's
    floating-point type; what is used of it is that adding [-log p] for
    [p <= 1] does not give less, as it is with the reals. *)
Theorem scores_non_decreasing (tokenizer : Tokenizer) (model : Model)
    (beam_width max_len : Z) (seed : option string) :
  (forall batch_x b pos u,
     u < vocab_size tokenizer -> (model batch_x b pos u <= 1)%R) ->
  growing model ->
  let log := fst (generator tokenizer model beam_width max_len seed) in
  Forall (scores_grow tokenizer model) log /\
  (forall it, hd_error log = Some it ->
              Forall (fun s => s = 0%R) (it_active_ids_prob it)) /\
  chained log.
Proof.
  intros Hle Hgrow. unfold generator, generator_fuel.
  destruct seed as [s|]; [|simpl; repeat split; [constructor|discriminate]].
  destruct (String.length s =? 0);
    [simpl; repeat split; [constructor|discriminate]|].
  pose proof (@generate_loop_scores tokenizer model beam_width max_len Hle
                Hgrow (S (Z.to_nat max_len))
                (convert_sentences_to_ids tokenizer [s]) [0%R] [] []) as H.
  pose proof (@generate_loop_chained tokenizer model beam_width max_len
                (S (Z.to_nat max_len))
                (convert_sentences_to_ids tokenizer [s]) [0%R] []) as Hch.
  unfold beam_search.
  assert (H' : let log := fst (generate_loop tokenizer model beam_width
                                 max_len (S (Z.to_nat max_len))
                                 (convert_sentences_to_ids tokenizer [s])
                                 [0%R] [] []) in
               Forall (scores_grow tokenizer model) log /\
               (forall it, hd_error log = Some it ->
                           Forall (fun s => s = 0%R) (it_active_ids_prob it))).
  { apply H; try discriminate; repeat constructor; unfold big; lra. }
  clear H.
  destruct (generate_loop _ _ _ _ _ _ _ _ _) as [log [g|e|]];
    [destruct (strip_all tokenizer g)| |]; simpl in *; tauto.
Qed.

Lemma scores_non_decreasing_witness :
  let log := fst (generator char_tokenizer skewed_model 2 4
                            (Some "ab"%string)) in
  Forall (scores_grow char_tokenizer skewed_model) log /\
  (forall it, hd_error log = Some it ->
              Forall (fun s => s = 0%R) (it_active_ids_prob it)) /\
  chained log.
Proof.
  apply (@scores_non_decreasing char_tokenizer skewed_model 2 4
           (Some "ab"%string)).
  - intros batch_x b pos u Hu. simpl.
    destruct u as [|[|[|u]]]; lra.
  - apply exact_growing. reflexivity.
Defined.

(** ** One beam: greedy decoding *)


Lemma pad_sequence_single (padding_value : nat) (ids : list nat) :
  pad_sequence padding_value [ids] = [ids].
Proof.
  unfold pad_sequence. simpl. rewrite Nat.max_0_r, Nat.sub_diag. simpl.
  rewrite app_nil_r. reflexivity.
Qed.

Lemma ln_lt_self (x : R) : (0 < x)%R -> (ln x < x)%R.
Proof.
  intros Hx. rewrite <- (ln_exp x) at 2.
  apply ln_increasing; [exact Hx|].
  assert (Hne : x <> 0%R) by lra.
  pose proof (exp_ineq1 x Hne). lra.
Qed.

Section GreedyFacts.
Variable tokenizer : Tokenizer.
Variable model : Model.
Variable max_len : Z.

Hypothesis vocab_size_positive : 1 <= vocab_size tokenizer.
Hypothesis model_non_negative : non_negative tokenizer model.



End GreedyFacts.


(** ** No read out of range *)

(** After the guard of line 115 the scan of lines 118-121 does not leave at
    level 0: the decrement of line 120 keeps [level] at 0 or more. *)
Lemma scan_leaves_above_0 (p : R) (buf : list entry) :
  buf <> [] -> Rltb p (value (nth 0 buf no_entry)) = false ->
  1 <= first_gt p buf /\
  find_level (length buf) p buf = first_gt p buf - 1.
Proof.
  intros Hne Hguard. split; [|apply find_level_first_gt].
  destruct buf as [|x buf]; [congruence|]. simpl in *.
  rewrite Hguard. lia.
Qed.

Lemma select_is_defined (model : Model) (eos : nat)
    (active_ids_prob : list R) (n : nat) :
  forall top_value,
    top_value <> [] ->
    Forall (fun buf => n <= length buf) top_value ->
    select_defined model n eos top_value active_ids_prob.
Proof.
  induction n as [|n IH]; intros tv Hne Hlen; simpl; [exact I|].
  split; [exact Hne|]. split.
  - eapply Forall_impl; [|exact Hlen]. intros buf Hb.
    destruct buf; [simpl in Hb; lia|discriminate].
  - destruct (scan_beams model eos tv active_ids_prob) as [e|c];
      [exact I|].
    apply IH.
    + intros Hnil. apply (f_equal (@length _)) in Hnil.
      rewrite length_pop_at in Hnil. destruct tv; [congruence|discriminate].
    + apply pop_at_lengths, Hlen.
Qed.

(** In a pass the selection only reads and pops entries that exist. *)
Lemma iterate_select_defined (tokenizer : Tokenizer) (model : Model)
    (beam_width : Z) (active_ids : list (list nat))
    (active_ids_prob : list R) :
  active_ids <> [] ->
  select_defined model (Z.to_nat beam_width) (eos_token_id tokenizer)
    (it_top_value
       (iterate tokenizer model beam_width active_ids active_ids_prob))
    active_ids_prob.
Proof.
  intros Hne. apply select_is_defined.
  - intros Hnil. apply (f_equal (@length _)) in Hnil. simpl in Hnil.
    rewrite length_top_values in Hnil.
    destruct active_ids; [congruence|discriminate].
  - simpl. apply Forall_forall. intros buf Hin.
    unfold top_values in Hin. apply in_map_iff in Hin.
    destruct Hin as (b & <- & _). rewrite length_top_k. lia.
Qed.

(** ** Runs *)

(** The selection on one beam that holds one option, and two. *)
Lemma select_one (model : Model) (eos : nat) (e : entry) (s : R) :
  is_tensor e = true -> (0 < value e)%R ->
  (neg_log_add model (value e) s < big)%R ->
  select model 1 eos [[e]] [s]
  = ([{| beam_id := 0; c_vocab_id := vocab_id e;
         c_value := neg_log_add model (value e) s |}], None).
Proof.
  intros Ht Hpos Hlt. unfold select, scan_beams.
  cbn [length seq scan_from]. unfold scan_beam. cbn [nth last].
  rewrite Ht. unfold neg_log_plus.
  destruct (Rlt_dec 0 (value e)) as [_|Hno]; [|contradiction].
  cbn [c_value]. apply Rltb_true in Hlt. rewrite Hlt. reflexivity.
Qed.

Lemma select_two (model : Model) (eos : nat) (e1 e2 : entry) (s : R) :
  is_tensor e1 = true -> (0 < value e1)%R ->
  (neg_log_add model (value e1) s < big)%R ->
  is_tensor e2 = true -> (0 < value e2)%R ->
  (neg_log_add model (value e2) s < big)%R ->
  select model 2 eos [[e1; e2]] [s]
  = ([{| beam_id := 0; c_vocab_id := vocab_id e2;
         c_value := neg_log_add model (value e2) s |};
      {| beam_id := 0; c_vocab_id := vocab_id e1;
         c_value := neg_log_add model (value e1) s |}], None).
Proof.
  intros Ht1 Hpos1 Hlt1 Ht2 Hpos2 Hlt2.
  change (select model 2 eos [[e1; e2]] [s])
    with (match scan_beams model eos [[e1; e2]] [s] with
          | inl e => ([], Some e)
          | inr c =>
              let rest := select model 1 eos
                                 (pop_at [[e1; e2]] (beam_id c)) [s] in
              (c :: fst rest, snd rest)
          end).
  assert (H2 : scan_beams model eos [[e1; e2]] [s]
               = inr {| beam_id := 0; c_vocab_id := vocab_id e2;
                        c_value := neg_log_add model (value e2) s |}).
  { unfold scan_beams. cbn [length seq scan_from]. unfold scan_beam.
    cbn [nth last]. rewrite Ht2. unfold neg_log_plus.
    destruct (Rlt_dec 0 (value e2)) as [_|Hno]; [|contradiction].
    cbn [c_value]. apply Rltb_true in Hlt2. rewrite Hlt2. reflexivity. }
  rewrite H2. cbv zeta. cbn [beam_id]. unfold pop_at.
  cbn [nth set_item removelast].
  rewrite select_one by assumption. reflexivity.
Qed.

Lemma scenario_pass (ids : list nat) (s : R) :
  (s < big)%R ->
  let it := iterate char_tokenizer scenario_model 1 [ids] [s] in
  it_final_top_value it
  = [{| beam_id := 0;
        c_vocab_id := if length ids - 1 <? 2 then 2 else 1;
        c_value := - ln 1 + s |}] /\
  it_raised it = None.
Proof.
  intros Hs.
  assert (Htop : top_k 1 1 4 (scenario_model [ids] 0 (length ids - 1))
                 = [{| vocab_id := if length ids - 1 <? 2 then 2 else 1;
                       value := 1; is_tensor := true |}]).
  { unfold scenario_model. cbn [predict]. destruct (length ids - 1 <? 2);
      unfold top_k, sentinels, offer, find_level, shift_down; simpl;
      repeat (decide_Rltb; simpl); reflexivity. }
  assert (Hsel :
    select scenario_model 1 1
           [top_k 1 1 4 (scenario_model [ids] 0 (length ids - 1))] [s]
    = ([{| beam_id := 0;
           c_vocab_id := if length ids - 1 <? 2 then 2 else 1;
           c_value := - ln 1 + s |}], None)).
  { rewrite Htop. rewrite select_one; [reflexivity|reflexivity| |];
      cbn [value]; [lra|].
    change (- ln 1 + s < big)%R. rewrite ln_1. lra. }
  unfold iterate. cbn [it_final_top_value it_raised].
  rewrite pad_sequence_single. unfold top_values.
  change (Z.to_nat 1) with 1. cbn [length seq map nth].
  change (eos_token_id char_tokenizer) with 1.
  change (vocab_size char_tokenizer) with 4.
  rewrite Hsel. split; reflexivity.
Qed.

(** The scenario of the specification, one beam: three passes on the seed
    [a], then the end of sequence, which is stripped. *)
Example scenario_run :
  snd (generator char_tokenizer scenario_model 1 5 (Some "a"%string))
  = Returned ["aaa"%string].
Proof.
  unfold generator, generator_fuel, beam_search. change (Z.to_nat 5) with 5.
  change (String.length "a" =? 0) with false. cbv iota.
  change (convert_sentences_to_ids char_tokenizer ["a"%string]) with [[2]].
  assert (Hbig : forall s, (s < big -> - ln 1 + s < big)%R)
    by (intros; rewrite ln_1; lra).
  assert (H0 : (0 < big)%R) by (unfold big; lra).
  rewrite (@generate_loop_step char_tokenizer scenario_model 1 5 _ _ _ _ _
             [[2]] [0%R] []); [|reflexivity|discriminate|simpl; lia].
  cbv zeta. destruct (@scenario_pass [2] 0%R H0) as [Hf Hr].
  rewrite Hr, Hf. clear Hf Hr. simpl map.
  rewrite (@generate_loop_step char_tokenizer scenario_model 1 5 _ _ _ _ _
             [[2; 2]] [(- ln 1 + 0)%R] []);
    [|reflexivity|discriminate|simpl; lia].
  cbv zeta. destruct (@scenario_pass [2; 2] (- ln 1 + 0)%R) as [Hf Hr];
    [auto|].
  rewrite Hr, Hf. clear Hf Hr. simpl map.
  rewrite (@generate_loop_step char_tokenizer scenario_model 1 5 _ _ _ _ _
             [[2; 2; 2]] [(- ln 1 + (- ln 1 + 0))%R] []);
    [|reflexivity|discriminate|simpl; lia].
  cbv zeta.
  destruct (@scenario_pass [2; 2; 2] (- ln 1 + (- ln 1 + 0))%R)
    as [Hf Hr]; [auto|].
  rewrite Hr, Hf. clear Hf Hr. simpl map.
  reflexivity.
Qed.


Lemma skewed_top_2 (batch_x : list (list nat)) (b pos : nat) :
  top_k 2 1 4 (skewed_model batch_x b pos)
  = [{| vocab_id := 2; value := 1 / 4; is_tensor := true |};
     {| vocab_id := 3; value := 1 / 2; is_tensor := true |}].
Proof.
  unfold top_k, sentinels, offer, find_level, shift_down, skewed_model.
  simpl. repeat (decide_Rltb; simpl). reflexivity.
Qed.

Lemma neg_ln_small (p s : R) :
  (1 / 4 <= p <= 1)%R -> (0 <= s < 1000)%R -> (- ln p + s < big)%R.
Proof.
  intros [Hp1 Hp2] Hs.
  assert (H4 : (0 < 4)%R) by lra.
  pose proof (ln_lt_self H4) as Hl4.
  assert (Hln : (- ln 4 <= ln p)%R).
  { rewrite <- ln_Rinv by lra.
    destruct (Rle_lt_or_eq_dec (/ 4) p) as [Hlt | <-]; [lra| |lra].
    left. apply ln_increasing; lra. }
  unfold big. lra.
Qed.



Lemma skewed_pass_2 :
  let it := iterate char_tokenizer skewed_model 2 [[2]] [0%R] in
  it_final_top_value it
  = [{| beam_id := 0; c_vocab_id := 3; c_value := - ln (1 / 2) + 0 |};
     {| beam_id := 0; c_vocab_id := 2; c_value := - ln (1 / 4) + 0 |}] /\
  it_raised it = None.
Proof.
  unfold iterate. cbn [it_final_top_value it_raised].
  unfold top_values. change (Z.to_nat 2) with 2. cbn [length seq map].
  change (eos_token_id char_tokenizer) with 1.
  change (vocab_size char_tokenizer) with 4.
  rewrite skewed_top_2.
  rewrite select_two; [split; reflexivity|..]; cbn [value];
    try reflexivity; try lra.
  - change (- ln (1 / 4) + 0 < big)%R. apply neg_ln_small; lra.
  - change (- ln (1 / 2) + 0 < big)%R. apply neg_ln_small; lra.
Qed.

(** Two beams on the seed [a] with [max_len = 2]: one pass, which keeps the
    two most likely ids, the most likely first. *)
Example two_beams_run :
  generator char_tokenizer skewed_model 2 2 (Some "a"%string)
  = ([iterate char_tokenizer skewed_model 2 [[2]] [0%R]],
     Returned ["ab"%string; "aa"%string]).
Proof.
  unfold generator, generator_fuel, beam_search. change (Z.to_nat 2) with 2.
  change (String.length "a" =? 0) with false. cbv iota.
  change (convert_sentences_to_ids char_tokenizer ["a"%string]) with [[2]].
  rewrite (@generate_loop_step char_tokenizer skewed_model 2 2 _ _ _ _ _
             [[2]] [0%R] []); [|reflexivity|discriminate|simpl; lia].
  cbv zeta. destruct skewed_pass_2 as [Hf Hr].
  rewrite Hr, Hf. reflexivity.
Qed.



(** * Further properties of the decoder *)

(** ** The buffer holds the most likely ids *)

Lemma top_k_covers (beam_width eos : nat) (P : nat -> R) (n : nat) :
  forall u, u < n ->
    In {| vocab_id := u; value := P u; is_tensor := true |}
       (top_k beam_width eos n P) \/
    Forall (fun e => (P u <= value e)%R) (top_k beam_width eos n P).
Proof.
  induction n as [|n IH]; intros u Hu; [lia|].
  pose proof (ascending_top_k beam_width eos n P) as Hasc.
  rewrite top_k_step. destruct (top_k beam_width eos n P) as [|x buf] eqn:E.
  - simpl. right. constructor.
  - simpl. destruct (Rltb (P n) (value x)) eqn:C; simpl.
    + apply Rltb_true in C. inversion Hasc as [|? ? _ Hx]; subst.
      destruct (Nat.eq_dec u n) as [->|Hne].
      * right. constructor; [lra|].
        eapply Forall_impl; [|exact Hx]. unfold le_value. simpl. intros; lra.
      * apply IH. lia.
    + apply Rltb_false in C. inversion Hasc as [|? ? _ Hx]; subst.
      destruct (Nat.eq_dec u n) as [->|Hne].
      * left. apply in_ins. left. reflexivity.
      * destruct (IH u) as [[Hin|Hin]|Hall]; [lia| | |].
        -- right. subst x. simpl in *. apply Forall_forall. intros e He.
           apply in_ins in He. destruct He as [->|He]; [exact C|].
           rewrite Forall_forall in Hx. apply (Hx e He).
        -- left. apply in_ins. right. exact Hin.
        -- right. inversion Hall as [|? ? Hux Hub]; subst.
           apply Forall_forall. intros e He. apply in_ins in He.
           destruct He as [->|He]; [simpl; lra|].
           rewrite Forall_forall in Hub. auto.
Qed.

(** X1.  The buffer holds the most likely ids: each of its entries is a
    sentinel or an offered id with its probability, and an offered id that
    is not in the buffer has a probability that no entry of the buffer is
    below. *)
Theorem top_k_keeps_largest (beam_width eos : nat) (P : nat -> R)
    (n u : nat) :
  u < n ->
  let buf := top_k beam_width eos n P in
  (forall e, In e buf ->
     e = {| vocab_id := eos; value := 0; is_tensor := false |} \/
     (vocab_id e < n /\ value e = P (vocab_id e))) /\
  (In {| vocab_id := u; value := P u; is_tensor := true |} buf \/
   Forall (fun e => (P u <= value e)%R) buf).
Proof.
  intros Hu. simpl. split.
  - intros e He. apply in_top_k in He.
    destruct He as [He|(H1 & H2 & _)]; auto.
  - apply top_k_covers, Hu.
Qed.

Lemma top_k_keeps_largest_witness :
  let P := skewed_model [[2]] 0 0 in
  let buf := top_k 2 1 4 P in
  (forall e, In e buf ->
     e = {| vocab_id := 1; value := 0; is_tensor := false |} \/
     (vocab_id e < 4 /\ value e = P (vocab_id e))) /\
  (In {| vocab_id := 1; value := P 1; is_tensor := true |} buf \/
   Forall (fun e => (P 1%nat <= value e)%R) buf).
Proof.
  apply (@top_k_keeps_largest 2 1 (skewed_model [[2]] 0 0) 4 1). lia.
Defined.

(** X2.  When at least [beam_width] ids were offered, none with a negative
    probability, no sentinel is left: the buffer holds [beam_width]
    different vocabulary ids, each with its probability, read from the
    tensor. *)
Theorem top_k_distinct_ids (beam_width eos : nat) (P : nat -> R) (n : nat) :
  (forall u, u < n -> (0 <= P u)%R) -> beam_width <= n ->
  let buf := top_k beam_width eos n P in
  length buf = beam_width /\
  Forall (fun e => vocab_id e < n /\ value e = P (vocab_id e) /\
                   is_tensor e = true) buf /\
  NoDup (map vocab_id buf).
Proof.
  intros Hpos Hn. simpl.
  destruct (top_k_structure beam_width eos P Hpos)
    as (R0 & Hbuf & Hlen & Hreal & Hnd).
  replace (beam_width - n) with 0 in Hbuf by lia. simpl in Hbuf.
  rewrite Hbuf. split; [lia|]. auto.
Qed.

Lemma top_k_distinct_ids_witness :
  let P := skewed_model [[2]] 0 0 in
  let buf := top_k 2 1 4 P in
  length buf = 2 /\
  Forall (fun e => vocab_id e < 4 /\ value e = P (vocab_id e) /\
                   is_tensor e = true) buf /\
  NoDup (map vocab_id buf).
Proof.
  apply (@top_k_distinct_ids 2 1 (skewed_model [[2]] 0 0) 4); [|lia].
  intros u _. simpl. destruct u as [|[|[|u]]]; lra.
Defined.

(** ** The selection takes the least option *)

Lemma scan_from_least (model : Model) (eos : nat)
    (top_value : list (list entry)) (active_ids_prob : list R) (k : nat) :
  forall c,
    scan_from model top_value active_ids_prob (seq 0 k) (fallback eos)
    = inr c ->
    least_option model eos top_value active_ids_prob k c.
Proof.
  induction k as [|k IH]; intros c.
  - simpl. intros H. injection H as <-.
    split; [intros; lia|]. split; [simpl; lra|]. left. reflexivity.
  - rewrite seq_S, scan_from_app. cbn [Nat.add].
    destruct (scan_from model top_value active_ids_prob (seq 0 k)
                        (fallback eos)) as [e|c0]; [discriminate|].
    specialize (IH c0 eq_refl). destruct IH as (Hmin & Hbig & Hc).
    cbn [scan_from].
    destruct (scan_beam model top_value active_ids_prob c0 k) as [e|c1]
      eqn:E1; [discriminate|].
    intros H. injection H as <-. apply scan_beam_inr in E1.
    destruct E1 as [_ ->].
    destruct (option_value model top_value active_ids_prob k) as [v|] eqn:Ev.
    + destruct (Rltb v (c_value c0)) eqn:C.
      * apply Rltb_true in C. split; [|split].
        -- intros b w Hb Hw. simpl.
           destruct (Nat.eq_dec b k) as [->|Hne].
           ++ rewrite Ev in Hw. injection Hw as <-. lra.
           ++ assert (Hbk : b < k) by lia.
              specialize (Hmin b w Hbk Hw). lra.
        -- simpl. lra.
        -- right. simpl. split; [lia|]. split; [exact Ev|].
           split; [reflexivity|]. split; [lra|].
           intros b w Hb Hw. specialize (Hmin b w Hb Hw). lra.
      * apply Rltb_false in C. split; [|split].
        -- intros b w Hb Hw. destruct (Nat.eq_dec b k) as [->|Hne].
           ++ rewrite Ev in Hw. injection Hw as <-. exact C.
           ++ apply (Hmin b w); [lia|exact Hw].
        -- exact Hbig.
        -- destruct Hc as [Hc|(H1 & H2 & H3 & H4 & H5)]; [left; exact Hc|].
           right. repeat split; auto; lia.
    + split; [|split].
      * intros b w Hb Hw. destruct (Nat.eq_dec b k) as [->|Hne].
        -- rewrite Ev in Hw. discriminate.
        -- apply (Hmin b w); [lia|exact Hw].
      * exact Hbig.
      * destruct Hc as [Hc|(H1 & H2 & H3 & H4 & H5)]; [left; exact Hc|].
        right. repeat split; auto; lia.
Qed.

Lemma scan_beams_least_option (model : Model) (eos : nat)
    (top_value : list (list entry)) (active_ids_prob : list R)
    (c : choice) :
  scan_beams model eos top_value active_ids_prob = inr c ->
  least_option model eos top_value active_ids_prob (length top_value) c.
Proof. apply scan_from_least. Qed.

(** ** The options of a pass are taken in order of score *)

Lemma ln_monotone (x y : R) : (0 < x)%R -> (x <= y)%R -> (ln x <= ln y)%R.
Proof.
  intros Hx Hxy. destruct (Rle_lt_or_eq_dec _ _ Hxy) as [Hlt | ->]; [|lra].
  left. apply ln_increasing; assumption.
Qed.

Lemma exact_antitone (model : Model) :
  neg_log_add model = exact_neg_log_add -> antitone model.
Proof.
  intros E p q s [Hp Hpq]. rewrite E. unfold exact_neg_log_add.
  pose proof (ln_monotone Hp Hpq). lra.
Qed.

Lemma ascending_removelast (buf : list entry) :
  ascending buf -> ascending (removelast buf).
Proof.
  unfold ascending. induction 1 as [|x buf Hs IH Hx]; [constructor|].
  destruct buf as [|y buf]; [constructor|].
  change (StronglySorted le_value (x :: removelast (y :: buf))).
  constructor; [exact IH|].
  apply Forall_forall. intros e He. apply in_removelast in He.
  rewrite Forall_forall in Hx. auto.
Qed.

Lemma ascending_last_max (buf : list entry) (d e : entry) :
  ascending buf -> In e buf -> (value e <= value (last buf d))%R.
Proof.
  unfold ascending. induction 1 as [|x buf Hs IH Hx]; [contradiction|].
  intros [->|He].
  - destruct buf as [|y buf]; [simpl; lra|].
    change (value e <= value (last (y :: buf) d))%R.
    rewrite Forall_forall in Hx. apply (Hx (last (y :: buf) d)).
    apply last_in. discriminate.
  - destruct buf as [|y buf]; [contradiction|].
    change (value e <= value (last (y :: buf) d))%R. apply IH, He.
Qed.

Lemma pop_at_ascending (top_value : list (list entry)) (b : nat) :
  Forall ascending top_value -> Forall ascending (pop_at top_value b).
Proof.
  intros H. apply Forall_set_item; [exact H|].
  apply ascending_removelast.
  destruct (Nat.lt_ge_cases b (length top_value)) as [Hb|Hb].
  - rewrite Forall_forall in H. apply H, nth_In, Hb.
  - rewrite nth_overflow by exact Hb. constructor.
Qed.

(** After a [pop] the best option of a beam is not better than before. *)
Lemma option_value_pop (model : Model) (top_value : list (list entry))
    (active_ids_prob : list R) (b0 b : nat) (v' : R) :
  antitone model ->
  Forall ascending top_value ->
  option_value model (pop_at top_value b0) active_ids_prob b = Some v' ->
  exists v, option_value model top_value active_ids_prob b = Some v /\
            (v <= v')%R.
Proof.
  intros Hanti Hasc. unfold option_value, pop_at. rewrite nth_set_item.
  destruct ((b =? b0) && (b0 <? length top_value)) eqn:E;
    [|intros H; exists v'; split; [exact H|lra]].
  apply andb_prop in E. destruct E as [E1 E2].
  apply Nat.eqb_eq in E1. subst b0. apply Nat.ltb_lt in E2.
  rewrite Forall_forall in Hasc.
  pose proof (Hasc _ (nth_In top_value [] E2)) as Hbuf.
  set (buf := nth b top_value []) in *.
  intros H. apply neg_log_plus_some in H. destruct H as [Hpos ->].
  assert (Hne : removelast buf <> []).
  { intros Hnil. rewrite Hnil in Hpos. simpl in Hpos. lra. }
  assert (Hle : (value (last (removelast buf) no_entry)
                 <= value (last buf no_entry))%R).
  { apply ascending_last_max; [exact Hbuf|].
    apply in_removelast, last_in, Hne. }
  exists (neg_log_add model (value (last buf no_entry))
                      (nth b active_ids_prob 0%R)).
  unfold neg_log_plus.
  destruct (Rlt_dec 0 (value (last buf no_entry))) as [_|Hno]; [|lra].
  split; [reflexivity|]. apply Hanti. split; assumption.
Qed.

Lemma round_monotone (model : Model) (eos : nat)
    (top_value : list (list entry)) (active_ids_prob : list R) (b0 : nat)
    (c1 c2 : choice) :
  antitone model ->
  Forall ascending top_value ->
  scan_beams model eos top_value active_ids_prob = inr c1 ->
  scan_beams model eos (pop_at top_value b0) active_ids_prob = inr c2 ->
  (c_value c1 <= c_value c2)%R.
Proof.
  intros Hanti Hasc H1 H2.
  destruct (scan_beams_least_option _ _ _ _ H1) as (Hmin & Hbig & _).
  destruct (scan_beams_least_option _ _ _ _ H2)
    as (_ & _ & [->|(Hb & Hv & _)]); [exact Hbig|].
  rewrite length_pop_at in Hb.
  destruct (@option_value_pop model top_value active_ids_prob b0
              (beam_id c2) (c_value c2) Hanti Hasc Hv) as (v & Hv0 & Hle).
  specialize (Hmin _ _ Hb Hv0). lra.
Qed.

Lemma select_sorted (model : Model) (eos : nat) (active_ids_prob : list R)
    (n : nat) :
  antitone model ->
  forall top_value,
    Forall ascending top_value ->
    Sorted Rle
      (map c_value (fst (select model n eos top_value active_ids_prob))).
Proof.
  intros Hanti. induction n as [|n IH]; intros tv Hasc; cbn [select];
    [constructor|].
  destruct (scan_beams model eos tv active_ids_prob) as [e|c] eqn:E;
    [constructor|].
  cbv zeta. cbn [fst map]. constructor.
  - apply IH, pop_at_ascending, Hasc.
  - destruct n as [|n]; cbn [select]; [constructor|].
    destruct (scan_beams model eos (pop_at tv (beam_id c)) active_ids_prob)
      as [e|c'] eqn:E'; [constructor|].
    cbv zeta. cbn [fst map]. constructor.
    eapply round_monotone; eauto.
Qed.

(** The choice of a round is the result of the scan of the buffers as the
    rounds before left them. *)
Lemma nth_select (model : Model) (eos : nat) (active_ids_prob : list R)
    (d : choice) (n : nat) :
  forall i top_value,
    i < length (fst (select model n eos top_value active_ids_prob)) ->
    scan_beams model eos (popped model i eos top_value active_ids_prob)
               active_ids_prob
    = inr (nth i (fst (select model n eos top_value active_ids_prob)) d).
Proof.
  induction n as [|n IH]; intros i tv; cbn [select]; [simpl; lia|].
  destruct (scan_beams model eos tv active_ids_prob) as [e|c] eqn:E;
    [simpl; lia|].
  cbv zeta. cbn [fst length]. intros Hi.
  destruct i as [|i]; [exact E|].
  cbn [popped nth]. rewrite E. apply IH. lia.
Qed.

Lemma length_popped (model : Model) (eos : nat) (active_ids_prob : list R)
    (i : nat) :
  forall top_value,
    length (popped model i eos top_value active_ids_prob)
    = length top_value.
Proof.
  induction i as [|i IH]; intros tv; cbn [popped]; [reflexivity|].
  destruct (scan_beams model eos tv active_ids_prob); [reflexivity|].
  rewrite IH. apply length_pop_at.
Qed.

(** The rounds of a selection end before [n] choices only with the
    [TypeError] of a sentinel that is the best entry left of a beam. *)
Lemma select_raised (model : Model) (eos : nat) (active_ids_prob : list R)
    (n : nat) :
  forall top_value e,
    let r := select model n eos top_value active_ids_prob in
    snd r = Some e ->
    e = TypeError /\ length (fst r) < n /\
    exists b,
      b < length top_value /\
      is_tensor
        (last (nth b (popped model (length (fst r)) eos top_value
                             active_ids_prob) []) no_entry) = false.
Proof.
  induction n as [|n IH]; intros tv e; cbn [select]; [discriminate|].
  destruct (scan_beams model eos tv active_ids_prob) as [e'|c] eqn:E.
  - cbv zeta. cbn [fst snd length popped]. intros H. injection H as <-.
    apply scan_beams_error in E. destruct E as [-> Hb].
    split; [reflexivity|]. split; [lia|exact Hb].
  - cbv zeta. cbn [fst snd length popped]. rewrite E. intros H.
    apply IH in H. destruct H as (-> & Hlen & b & Hb & Ht).
    rewrite length_pop_at in Hb.
    split; [reflexivity|]. split; [lia|]. exists b. auto.
Qed.

(** X3.  In every pass each round of the global selection that is made
    takes the least combined score among the best options that the rounds
    before have left in the buffers, the lowest beam among equal scores;
    when no option is below 999999999 it yields the fallback: beam 0, the
    end-of-sequence id and the score 999999999.  The scores are the values
    of line 140 as the arithmetic of the network gives them.  A pass makes
    [beam_width] rounds, unless a round finds a sentinel as the best entry
    left in a buffer: [torch.log] then raises [TypeError], which ends the
    pass. *)
Theorem selection_takes_least (tokenizer : Tokenizer) (model : Model)
    (beam_width max_len : Z) (seed : option string)
    (it : iteration) (i : nat) :
  In it (fst (generator tokenizer model beam_width max_len seed)) ->
  i < length (it_final_top_value it) ->
  let eos := eos_token_id tokenizer in
  let left n :=
    popped model n eos (it_top_value it) (it_active_ids_prob it) in
  least_option model eos (left i) (it_active_ids_prob it)
               (length (it_active_ids it))
               (nth i (it_final_top_value it) (fallback eos)) /\
  (it_raised it = None ->
   length (it_final_top_value it) = Z.to_nat beam_width) /\
  (forall e, it_raised it = Some e ->
     e = TypeError /\
     length (it_final_top_value it) < Z.to_nat beam_width /\
     exists b,
       b < length (it_active_ids it) /\
       is_tensor
         (last (nth b (left (length (it_final_top_value it))) [])
               no_entry) = false).
Proof.
  intros Hit Hi.
  pose proof (@generator_log tokenizer model beam_width max_len seed
    (fun it => forall i, i < length (it_final_top_value it) ->
       let eos := eos_token_id tokenizer in
       let left n :=
         popped model n eos (it_top_value it) (it_active_ids_prob it) in
       least_option model eos (left i) (it_active_ids_prob it)
                    (length (it_active_ids it))
                    (nth i (it_final_top_value it) (fallback eos)) /\
       (it_raised it = None ->
        length (it_final_top_value it) = Z.to_nat beam_width) /\
       (forall e, it_raised it = Some e ->
          e = TypeError /\
          length (it_final_top_value it) < Z.to_nat beam_width /\
          exists b,
            b < length (it_active_ids it) /\
            is_tensor
              (last (nth b (left (length (it_final_top_value it))) [])
                    no_entry) = false))) as H.
  rewrite Forall_forall in H. apply H; [|exact Hit|exact Hi].
  clear. intros a ap _ _ i Hi. cbv zeta.
  pose proof (length_top_values tokenizer model beam_width a
                (pad_sequence (pad_token_id tokenizer) a)) as Hlen.
  cbn [it_final_top_value it_top_value it_active_ids_prob it_active_ids
       it_raised iterate] in *.
  split; [|split].
  - rewrite <- Hlen.
    rewrite <- (length_popped model (eos_token_id tokenizer) ap i).
    apply scan_beams_least_option. apply nth_select. exact Hi.
  - apply length_select.
  - intros e He. apply select_raised in He. rewrite Hlen in He. exact He.
Qed.

Lemma selection_takes_least_witness :
  let it := iterate char_tokenizer skewed_model 2 [[2]] [0%R] in
  let left :=
    popped skewed_model 1 1 (it_top_value it) (it_active_ids_prob it) in
  least_option skewed_model 1 left (it_active_ids_prob it)
               (length (it_active_ids it))
               (nth 1 (it_final_top_value it) (fallback 1)) /\
  length (it_final_top_value it) = Z.to_nat 2.
Proof.
  intros it.
  assert (H : In it (fst (generator char_tokenizer skewed_model 2 2
                                    (Some "a"%string)))).
  { rewrite two_beams_run. left. reflexivity. }
  destruct skewed_pass_2 as [Hf Hr]. fold it in Hf, Hr.
  assert (Hi : 1 < length (it_final_top_value it)).
  { rewrite Hf. simpl. lia. }
  destruct (@selection_takes_least char_tokenizer skewed_model 2 2
              (Some "a"%string) it 1 H Hi) as (Hleast & Hlen & _).
  split; [exact Hleast|exact (Hlen Hr)].
Defined.

(** X4.  The new candidates of a pass are made in order of score: the
    scores of the choices of the global selection never decrease from one
    round to the next, when the arithmetic of line 140 is monotone (a
    lower probability does not give a lower score), as that of the reals
    and every monotone rounding of it are. *)
Theorem selection_in_score_order (tokenizer : Tokenizer) (model : Model)
    (beam_width max_len : Z) (seed : option string) :
  antitone model ->
  Forall (fun it => Sorted Rle (map c_value (it_final_top_value it)))
         (fst (generator tokenizer model beam_width max_len seed)).
Proof.
  intros Hanti. apply generator_log. intros a ap _ _.
  cbn [it_final_top_value iterate]. apply select_sorted; [exact Hanti|].
  apply Forall_forall. intros buf Hbuf. unfold top_values in Hbuf.
  apply in_map_iff in Hbuf. destruct Hbuf as (b & <- & _).
  apply ascending_top_k.
Qed.

Lemma selection_in_score_order_witness :
  Forall (fun it => Sorted Rle (map c_value (it_final_top_value it)))
         (fst (generator char_tokenizer skewed_model 2 2
                         (Some "a"%string))).
Proof.
  apply (@selection_in_score_order char_tokenizer skewed_model 2 2
           (Some "a"%string)).
  apply exact_antitone. reflexivity.
Defined.

(** ** How many sequences are returned *)

Lemma partition_count (tokenizer : Tokenizer) (beam_width max_len : Z)
    (cands : list (list nat * R)) :
  forall a ap g a' ap' g',
    partition tokenizer beam_width max_len cands a ap g = inr (a', ap', g') ->
    (Z.of_nat (length g) <= beam_width)%Z ->
    (Z.of_nat (length a) <= Z.of_nat (length a')
     <= Z.of_nat (length a) + Z.of_nat (length cands))%Z /\
    Z.of_nat (length g')
    = Z.min beam_width
            (Z.of_nat (length g) + Z.of_nat (length cands)
             - (Z.of_nat (length a') - Z.of_nat (length a)))%Z.
Proof.
  induction cands as [|[ids s] cands IH]; intros a ap g a' ap' g'; simpl.
  - intros H Hg. injection H as <- <- <-. lia.
  - destruct (py_last ids) as [t|]; [|discriminate].
    destruct (negb (t =? eos_token_id tokenizer)
              && (Z.of_nat (length ids) <? max_len)%Z);
      [|destruct (Z.of_nat (length g) <? beam_width)%Z eqn:G];
      intros H Hg; apply IH in H;
      rewrite ?length_app in *; simpl length in *;
      try apply Z.ltb_lt in G; try apply Z.ltb_ge in G; lia.
Qed.

Lemma generate_loop_count (tokenizer : Tokenizer) (model : Model)
    (beam_width max_len : Z) (fuel : nat) (ids : list nat)
    (log' : list iteration) (g' : list (list nat)) :
  (1 <= beam_width)%Z ->
  generate_loop tokenizer model beam_width max_len fuel [ids] [0%R] [] []
  = (log', Returned g') ->
  length g' = match log' with [] => 1 | _ => Z.to_nat beam_width end.
Proof.
  intros Hbw Hrun.
  assert (H : forall r,
            snd (generate_loop tokenizer model beam_width max_len fuel
                               [ids] [0%R] [] []) = Returned r ->
            length r
            = match fst (generate_loop tokenizer model beam_width max_len
                                       fuel [ids] [0%R] [] []) with
              | [] => 1
              | _ => Z.to_nat beam_width
              end);
    [|rewrite Hrun in H; apply H; reflexivity].
  apply generate_loop_rule with
    (Inv := fun all_ids probs g log =>
       length all_ids = length probs /\
       (Z.of_nat (length g) <= beam_width)%Z /\
       ((log = [] /\ length all_ids = 1 /\ g = []) \/
        (log <> [] /\ length all_ids = Z.to_nat beam_width)))
    (Post := fun res => forall r, snd res = Returned r ->
       length r = match fst res with
                  | [] => 1
                  | _ => Z.to_nat beam_width
                  end); cbv beta; simpl fst; simpl snd; try discriminate.
  - intros all_ids probs g log a ap r0 (Hl & Hg & Hlog) HP Hret r Hr.
    injection Hr as <-.
    apply partition_count in HP; [|exact Hg].
    rewrite length_combine, <- Hl, Nat.min_id in HP. simpl length in HP.
    destruct HP as [Ha Hcount].
    destruct Hlog as [(-> & H1 & ->)|(Hne & Hn)].
    + simpl length in Hcount. destruct Hret as [->|Hret];
        simpl length in *; lia.
    + destruct log as [|it log]; [congruence|].
      destruct Hret as [->|Hret]; simpl length in *; lia.
  - intros all_ids probs g log a ap r0 (Hl & Hg & Hlog) HP Hne Hlt it Hr.
    subst it. rewrite !length_map, length_iterate_final by exact Hr.
    split; [reflexivity|]. split; [lia|]. right.
    split; [destruct log; discriminate|reflexivity].
  - split; [reflexivity|]. split; [simpl; lia|]. left. auto.
Qed.

(** X5.  With [beam_width >= 1] a call that returns, returns exactly
    [beam_width] strings when the network was called in at least one pass,
    and the seed alone when it was not called. *)
Theorem generator_returns_full_beam (tokenizer : Tokenizer) (model : Model)
    (beam_width max_len : Z) (seed : option string)
    (log : list iteration) (out : list string) :
  (1 <= beam_width)%Z ->
  generator tokenizer model beam_width max_len seed = (log, Returned out) ->
  length out = match log with [] => 1 | _ => Z.to_nat beam_width end.
Proof.
  intros Hbw Hrun. unfold generator in Hrun.
  apply generator_fuel_returned in Hrun.
  destruct Hrun as (s & g & stripped & _ & _ & Hsearch & Hstrip & ->).
  unfold convert_ids_to_sentences. rewrite length_map.
  rewrite (strip_all_length _ _ Hstrip).
  unfold beam_search in Hsearch.
  apply generate_loop_count in Hsearch; assumption.
Qed.

Lemma generator_returns_full_beam_witness :
  length ["ab"%string; "aa"%string] = Z.to_nat 2.
Proof.
  apply (@generator_returns_full_beam char_tokenizer skewed_model 2 2
           (Some "a"%string)
           [iterate char_tokenizer skewed_model 2 [[2]] [0%R]]
           ["ab"%string; "aa"%string]); [lia|].
  exact two_beams_run.
Defined.

(** ** What the returned sequences are made of *)

Lemma partition_collected (tokenizer : Tokenizer) (beam_width max_len : Z)
    (cands : list (list nat * R)) :
  forall a ap g a' ap' g',
    partition tokenizer beam_width max_len cands a ap g = inr (a', ap', g') ->
    exists g_new,
      g' = g ++ g_new /\
      Forall (fun ids => In ids (map fst cands) /\
                         complete tokenizer max_len ids) g_new.
Proof.
  induction cands as [|[ids s] cands IH]; intros a ap g a' ap' g'; simpl.
  - intros H. injection H as <- <- <-. exists []. rewrite app_nil_r.
    split; [reflexivity|constructor].
  - destruct (py_last ids) as [t|] eqn:E; [|discriminate].
    destruct (negb (t =? eos_token_id tokenizer)
              && (Z.of_nat (length ids) <? max_len)%Z) eqn:C;
      [|destruct (Z.of_nat (length g) <? beam_width)%Z];
      intros H; apply IH in H; destruct H as (gn & -> & Hgn).
    + exists gn. split; [reflexivity|].
      eapply Forall_impl; [|exact Hgn]. simpl. tauto.
    + exists (ids :: gn). rewrite <- app_assoc. split; [reflexivity|].
      constructor.
      * split; [left; reflexivity|]. unfold complete. rewrite E.
        apply andb_false_iff in C. destruct C as [C|C].
        -- apply negb_false_iff, Nat.eqb_eq in C. left. congruence.
        -- apply Z.ltb_ge in C. right. split; [|exact C].
           intros ->. discriminate.
      * eapply Forall_impl; [|exact Hgn]. simpl. tauto.
    + exists gn. split; [reflexivity|].
      eapply Forall_impl; [|exact Hgn]. simpl. tauto.
Qed.

Lemma generate_loop_results (tokenizer : Tokenizer) (model : Model)
    (beam_width max_len : Z) (fuel : nat) (seed : list nat)
    (log' : list iteration) (g' : list (list nat)) :
  generate_loop tokenizer model beam_width max_len fuel [seed] [0%R] [] []
  = (log', Returned g') ->
  Forall (fun ids => continues tokenizer seed ids /\
                     complete tokenizer max_len ids) g'.
Proof.
  intros Hrun.
  assert (H : forall r,
            snd (generate_loop tokenizer model beam_width max_len fuel
                               [seed] [0%R] [] []) = Returned r ->
            Forall (fun ids => continues tokenizer seed ids /\
                               complete tokenizer max_len ids) r);
    [|apply H; rewrite Hrun; reflexivity].
  assert (Hcollect : forall all_ids probs g a ap r,
    Forall (continues tokenizer seed) all_ids ->
    Forall (fun ids => continues tokenizer seed ids /\
                       complete tokenizer max_len ids) g ->
    partition tokenizer beam_width max_len (combine all_ids probs) [] [] g
    = inr (a, ap, r) ->
    Forall (fun ids => continues tokenizer seed ids /\
                       complete tokenizer max_len ids) r).
  { intros all_ids probs g a ap r Hall Hg HP.
    apply partition_collected in HP. destruct HP as (gn & -> & Hgn).
    apply Forall_app. split; [exact Hg|].
    apply Forall_forall. intros ids Hi. rewrite Forall_forall in Hgn, Hall.
    destruct (Hgn ids Hi) as [Hin Hc]. split; [|exact Hc].
    apply Hall. apply in_map_iff in Hin. destruct Hin as ([i s] & <- & Hin).
    eapply in_combine_l, Hin. }
  apply generate_loop_rule with
    (Inv := fun all_ids _ g _ =>
       Forall (continues tokenizer seed) all_ids /\
       Forall (fun ids => continues tokenizer seed ids /\
                          complete tokenizer max_len ids) g)
    (Post := fun res => forall r, snd res = Returned r ->
       Forall (fun ids => continues tokenizer seed ids /\
                          complete tokenizer max_len ids) r);
    cbv beta; simpl snd; try discriminate.
  - intros all_ids probs g log a ap r0 [Hall Hg] HP _ r Hr.
    injection Hr as <-. eapply Hcollect; eauto.
  - intros all_ids probs g log a ap r0 [Hall Hg] HP Hne _ it _. subst it.
    split; [|eapply Hcollect; eauto].
    apply Forall_forall. intros child Hchild.
    apply in_map_iff in Hchild. destruct Hchild as (c & <- & Hc).
    pose proof (iterate_beam_id _ _ _ _ _ Hne Hc) as Hb.
    apply partition_nil_spec in HP. destruct HP as (_ & _ & Hact & _).
    destruct (Hact _ (nth_In a [] Hb)) as [Hparent _].
    rewrite Forall_forall in Hall.
    destruct (Hall _ Hparent) as (suffix & Heq & Hsuffix).
    exists (suffix ++ [c_vocab_id c]). unfold expand.
    rewrite Heq, <- app_assoc. split; [reflexivity|].
    apply Forall_app. split; [exact Hsuffix|]. constructor; [|constructor].
    apply iterate_final_good in Hc.
    destruct Hc as [->|[(_ & e & He & _ & _ & Hv & _) _]];
      [right; reflexivity|].
    rewrite Hv. simpl in He. rewrite nth_top_values in He by exact Hb.
    apply in_top_k in He. destruct He as [->|[He _]]; [right|left]; auto.
  - split; [|constructor]. constructor; [|constructor].
    exists []. rewrite app_nil_r. split; [reflexivity|constructor].
Qed.

Lemma generator_returned_results (tokenizer : Tokenizer) (model : Model)
    (beam_width max_len : Z) (s : string)
    (log : list iteration) (out : list string) :
  generator tokenizer model beam_width max_len (Some s)
  = (log, Returned out) ->
  exists g stripped,
    beam_search tokenizer model beam_width max_len (S (Z.to_nat max_len)) s
    = (log, Returned g) /\
    strip_all tokenizer g = inr stripped /\
    out = convert_ids_to_sentences tokenizer stripped /\
    Forall (fun ids => continues tokenizer (encode tokenizer s) ids /\
                       complete tokenizer max_len ids) g.
Proof.
  intros Hrun. unfold generator in Hrun.
  apply generator_fuel_returned in Hrun.
  destruct Hrun as (s' & g & stripped & Hs & _ & Hsearch & Hstrip & ->).
  injection Hs as <-. exists g, stripped. repeat split; auto.
  unfold beam_search, convert_sentences_to_ids in Hsearch.
  simpl map in Hsearch. eapply generate_loop_results, Hsearch.
Qed.

(** X6.  Every returned sequence, before its end-of-sequence token is
    stripped, is the tokenization of the seed followed by ids that are
    vocabulary ids (below [vocab_size]) or the end-of-sequence id: the
    decoder keeps the seed as it is and emits no other id. *)
Theorem returned_continue_seed (tokenizer : Tokenizer) (model : Model)
    (beam_width max_len : Z) (s : string)
    (log : list iteration) (out : list string) :
  generator tokenizer model beam_width max_len (Some s)
  = (log, Returned out) ->
  exists g stripped,
    beam_search tokenizer model beam_width max_len (S (Z.to_nat max_len)) s
    = (log, Returned g) /\
    strip_all tokenizer g = inr stripped /\
    out = convert_ids_to_sentences tokenizer stripped /\
    Forall (continues tokenizer (encode tokenizer s)) g.
Proof.
  intros Hrun. apply generator_returned_results in Hrun.
  destruct Hrun as (g & stripped & H1 & H2 & H3 & H4).
  exists g, stripped. repeat split; auto.
  eapply Forall_impl; [|exact H4]. simpl. tauto.
Qed.

Lemma returned_continue_seed_witness :
  exists g stripped,
    beam_search char_tokenizer skewed_model 2 2 (S (Z.to_nat 2)) "a"%string
    = ([iterate char_tokenizer skewed_model 2 [[2]] [0%R]], Returned g) /\
    strip_all char_tokenizer g = inr stripped /\
    ["ab"%string; "aa"%string]
    = convert_ids_to_sentences char_tokenizer stripped /\
    Forall (continues char_tokenizer (encode char_tokenizer "a"%string)) g.
Proof.
  apply (@returned_continue_seed char_tokenizer skewed_model 2 2 "a"%string
           [iterate char_tokenizer skewed_model 2 [[2]] [0%R]]
           ["ab"%string; "aa"%string]).
  exact two_beams_run.
Defined.

(** X7.  Every returned sequence is complete: before stripping it ends
    with the end-of-sequence id or has [max_len] tokens or more.  No
    sequence that the loop would still extend is returned. *)
Theorem returned_are_complete (tokenizer : Tokenizer) (model : Model)
    (beam_width max_len : Z) (s : string)
    (log : list iteration) (out : list string) :
  generator tokenizer model beam_width max_len (Some s)
  = (log, Returned out) ->
  exists g stripped,
    beam_search tokenizer model beam_width max_len (S (Z.to_nat max_len)) s
    = (log, Returned g) /\
    strip_all tokenizer g = inr stripped /\
    out = convert_ids_to_sentences tokenizer stripped /\
    Forall (complete tokenizer max_len) g.
Proof.
  intros Hrun. apply generator_returned_results in Hrun.
  destruct Hrun as (g & stripped & H1 & H2 & H3 & H4).
  exists g, stripped. repeat split; auto.
  eapply Forall_impl; [|exact H4]. simpl. tauto.
Qed.

Lemma returned_are_complete_witness :
  exists g stripped,
    beam_search char_tokenizer skewed_model 2 2 (S (Z.to_nat 2)) "a"%string
    = ([iterate char_tokenizer skewed_model 2 [[2]] [0%R]], Returned g) /\
    strip_all char_tokenizer g = inr stripped /\
    ["ab"%string; "aa"%string]
    = convert_ids_to_sentences char_tokenizer stripped /\
    Forall (complete char_tokenizer 2) g.
Proof.
  apply (@returned_are_complete char_tokenizer skewed_model 2 2 "a"%string
           [iterate char_tokenizer skewed_model 2 [[2]] [0%R]]
           ["ab"%string; "aa"%string]).
  exact two_beams_run.
Defined.

(** ** The calls of the network *)

Lemma pad_width_uniform (L : nat) (batch : list (list nat)) :
  Forall (fun ids => length ids = L) batch ->
  fold_right Nat.max 0 (map (@length nat) batch) <= L.
Proof.
  induction 1 as [|ids batch Hl _ IH]; simpl; [lia|].
  rewrite Hl. lia.
Qed.

(** Sequences of one length are not padded. *)
Lemma pad_sequence_uniform (padding_value L : nat)
    (batch : list (list nat)) :
  Forall (fun ids => length ids = L) batch ->
  pad_sequence padding_value batch = batch.
Proof.
  intros H. unfold pad_sequence.
  pose proof (pad_width_uniform H) as Hw.
  set (width := fold_right Nat.max 0 (map (@length nat) batch)) in *.
  clearbody width. induction H as [|ids batch Hl _ IH]; [reflexivity|].
  simpl. rewrite IH. replace (width - length ids) with 0 by lia.
  simpl. rewrite app_nil_r. reflexivity.
Qed.

Lemma generate_loop_passes (tokenizer : Tokenizer) (model : Model)
    (beam_width max_len : Z) (fuel : nat) (seed : list nat) :
  let log := fst (generate_loop tokenizer model beam_width max_len fuel
                                [seed] [0%R] [] []) in
  (Z.of_nat (length log)
   <= Z.max 0 (max_len - Z.of_nat (length seed)))%Z /\
  Forall (fun it => it_active_ids it <> [] /\
                    it_batch_x it = it_active_ids it) log.
Proof.
  assert (Hstep : forall all_ids probs g log a ap g',
    Forall (fun ids => length ids = length seed + length log) all_ids /\
    (Z.of_nat (length log)
     <= Z.max 0 (max_len - Z.of_nat (length seed)))%Z /\
    Forall (fun it => it_active_ids it <> [] /\
                      it_batch_x it = it_active_ids it) log ->
    partition tokenizer beam_width max_len (combine all_ids probs) [] [] g
    = inr (a, ap, g') ->
    a <> [] ->
    let it := iterate tokenizer model beam_width a ap in
    Forall (fun ids => length ids = length seed + length (log ++ [it]))
           (map (expand a) (it_final_top_value it)) /\
    (Z.of_nat (length (log ++ [it]))
     <= Z.max 0 (max_len - Z.of_nat (length seed)))%Z /\
    Forall (fun it => it_active_ids it <> [] /\
                      it_batch_x it = it_active_ids it) (log ++ [it])).
  { intros all_ids probs g log a ap g' (Hu & Hn & Hlog) HP Hne it.
    subst it.
    destruct (@step_uniform tokenizer model beam_width max_len _ _ probs g
                _ _ _ Hu HP Hne) as [Hlt Hu'].
    rewrite length_app. change (length [iterate tokenizer model beam_width
                                                a ap]) with 1.
    split.
    { replace (length seed + (length log + 1))
        with (S (length seed + length log)) by lia. exact Hu'. }
    split; [lia|].
    apply Forall_app. split; [exact Hlog|]. constructor; [|constructor].
    split; [exact Hne|]. simpl.
    apply pad_sequence_uniform with (L := length seed + length log).
    apply partition_nil_spec in HP. destruct HP as (_ & _ & Hact & _).
    rewrite Forall_forall in *. intros ids Hi. apply Hu, Hact, Hi. }
  apply generate_loop_rule with
    (Inv := fun all_ids _ _ log =>
       Forall (fun ids => length ids = length seed + length log) all_ids /\
       (Z.of_nat (length log)
        <= Z.max 0 (max_len - Z.of_nat (length seed)))%Z /\
       Forall (fun it => it_active_ids it <> [] /\
                         it_batch_x it = it_active_ids it) log)
    (Post := fun res =>
       (Z.of_nat (length (fst res))
        <= Z.max 0 (max_len - Z.of_nat (length seed)))%Z /\
       Forall (fun it => it_active_ids it <> [] /\
                         it_batch_x it = it_active_ids it) (fst res));
    cbv beta; simpl fst; try tauto.
  - intros all_ids probs g log a ap g' e HI HP Hne _ it _. subst it.
    destruct (Hstep _ _ _ _ _ _ _ HI HP Hne) as (_ & H1 & H2). auto.
  - intros all_ids probs g log a ap g' HI HP Hne _ it _. subst it.
    exact (Hstep _ _ _ _ _ _ _ HI HP Hne).
  - simpl. split; [constructor; [lia|constructor]|]. split; [lia|constructor].
Qed.

(** X8.  The network is called in at most [max_len - len(seed tokens)]
    passes, each time on a non-empty batch that is the list of the active
    candidates as they are: they all have the same length, so that no
    padding id is ever added. *)
Theorem network_calls (tokenizer : Tokenizer) (model : Model)
    (beam_width max_len : Z) (s : string) :
  let log := fst (generator tokenizer model beam_width max_len (Some s)) in
  (Z.of_nat (length log)
   <= Z.max 0 (max_len - Z.of_nat (length (encode tokenizer s))))%Z /\
  Forall (fun it => it_active_ids it <> [] /\
                    it_batch_x it = it_active_ids it) log.
Proof.
  unfold generator, generator_fuel.
  destruct (String.length s =? 0);
    [simpl; split; [lia|constructor]|].
  pose proof (@generate_loop_passes tokenizer model beam_width max_len
                (S (Z.to_nat max_len)) (encode tokenizer s)) as H.
  unfold beam_search, convert_sentences_to_ids. simpl map.
  destruct (generate_loop _ _ _ _ _ _ _ _ _) as [log [g|e|]];
    [destruct (strip_all tokenizer g)| |]; simpl in *; exact H.
Qed.

(** X9.  With [beam_width >= 1], a seed whose tokenization is already
    complete (it ends with the end-of-sequence id, or has [max_len] tokens
    or more) is returned alone, with its end-of-sequence token stripped and
    nothing appended, and the network is not called. *)
Theorem complete_seed_returned (tokenizer : Tokenizer) (model : Model)
    (beam_width max_len : Z) (s : string) (stripped : list nat) :
  (1 <= beam_width)%Z -> String.length s <> 0 ->
  complete tokenizer max_len (encode tokenizer s) ->
  strip_eos tokenizer (encode tokenizer s) = inr stripped ->
  generator tokenizer model beam_width max_len (Some s)
  = ([], Returned [decode tokenizer stripped]).
Proof.
  intros Hbw Hs Hc Hstrip. apply Nat.eqb_neq in Hs.
  unfold generator, generator_fuel, beam_search. rewrite Hs. simpl.
  assert (Hstrip' := Hstrip). unfold strip_eos in Hstrip.
  destruct (py_last (encode tokenizer s)) as [t|] eqn:El; [|discriminate].
  assert (Hcond : negb (t =? eos_token_id tokenizer)
                  && (Z.of_nat (length (encode tokenizer s)) <? max_len)%Z
                  = false).
  { destruct Hc as [Hc|[_ Hc]].
    - rewrite El in Hc. injection Hc as ->.
      rewrite Nat.eqb_refl. reflexivity.
    - apply andb_false_iff. right. apply Z.ltb_ge. exact Hc. }
  assert (Hg : (0 <? beam_width)%Z = true) by (apply Z.ltb_lt; lia).
  rewrite Hcond, Hg. simpl. rewrite Hstrip'. reflexivity.
Qed.

Lemma complete_seed_returned_witness :
  generator char_tokenizer uniform_model 3 5 (Some "ab$"%string)
  = ([], Returned ["ab"%string]).
Proof.
  apply (@complete_seed_returned char_tokenizer uniform_model 3 5
           "ab$"%string [2; 3]);
    [lia|simpl; lia|left; reflexivity|reflexivity].
Defined.

(** ** The order of the returned sequences *)

Lemma sorted_app_level (l : list nat) (L : nat) (l' : list nat) :
  StronglySorted le l -> Forall (fun x => x <= L) l ->
  Forall (fun x => x = L) l' ->
  StronglySorted le (l ++ l') /\ Forall (fun x => x <= L) (l ++ l').
Proof.
  intros Hs Hl Hl'. split.
  - induction Hs as [|x l Hs IH Hx]; simpl.
    + clear Hl. induction Hl' as [|y l' Hy Hl' IH']; constructor;
        [exact IH'|].
      subst y. eapply Forall_impl; [|exact Hl']. simpl. intros; lia.
    + inversion Hl as [|? ? HxL Hl0]; subst. constructor; [auto|].
      apply Forall_app. split; [exact Hx|].
      eapply Forall_impl; [|exact Hl']. simpl. intros; lia.
  - apply Forall_app. split; [exact Hl|].
    eapply Forall_impl; [|exact Hl']. simpl. intros; lia.
Qed.

Lemma generate_loop_result_order (tokenizer : Tokenizer) (model : Model)
    (beam_width max_len : Z) (fuel : nat) (seed : list nat)
    (log' : list iteration) (g' : list (list nat)) :
  generate_loop tokenizer model beam_width max_len fuel [seed] [0%R] [] []
  = (log', Returned g') ->
  StronglySorted le (map (@length nat) g').
Proof.
  intros Hrun.
  assert (H : forall r,
            snd (generate_loop tokenizer model beam_width max_len fuel
                               [seed] [0%R] [] []) = Returned r ->
            StronglySorted le (map (@length nat) r));
    [|apply H; rewrite Hrun; reflexivity].
  assert (Hcollect : forall L all_ids probs g a ap r,
    Forall (fun ids => length ids = L) all_ids ->
    StronglySorted le (map (@length nat) g) ->
    Forall (fun x => x <= L) (map (@length nat) g) ->
    partition tokenizer beam_width max_len (combine all_ids probs) [] [] g
    = inr (a, ap, r) ->
    StronglySorted le (map (@length nat) r) /\
    Forall (fun x => x <= L) (map (@length nat) r)).
  { intros L all_ids probs g a ap r Hu Hs Hl HP.
    apply partition_nil_spec in HP.
    destruct HP as (_ & _ & _ & _ & (gn & -> & Hgn) & _).
    rewrite map_app. apply sorted_app_level; auto.
    apply Forall_forall. intros x Hx. apply in_map_iff in Hx.
    destruct Hx as (ids & <- & Hi). rewrite Forall_forall in Hu. auto. }
  apply generate_loop_rule with
    (Inv := fun all_ids _ g _ =>
       exists L,
         Forall (fun ids => length ids = L) all_ids /\
         StronglySorted le (map (@length nat) g) /\
         Forall (fun x => x <= L) (map (@length nat) g))
    (Post := fun res => forall r, snd res = Returned r ->
       StronglySorted le (map (@length nat) r));
    cbv beta; simpl snd; try discriminate.
  - intros all_ids probs g log a ap r0 (L & Hu & Hs & Hl) HP _ r Hr.
    injection Hr as <-. eapply Hcollect; eauto.
  - intros all_ids probs g log a ap r0 (L & Hu & Hs & Hl) HP Hne _ it _.
    subst it. exists (S L).
    destruct (@step_uniform tokenizer model beam_width max_len _ _ probs g
                _ _ _ Hu HP Hne) as [_ Hu'].
    destruct (Hcollect _ _ _ _ _ _ _ Hu Hs Hl HP) as [Hs' Hl'].
    split; [exact Hu'|]. split; [exact Hs'|].
    eapply Forall_impl; [|exact Hl']. simpl. intros; lia.
  - exists (length seed). split; [constructor; [reflexivity|constructor]|].
    split; constructor.
Qed.

(** X10.  The sequences are returned in the order in which they were
    completed: before stripping, their lengths never decrease along the
    returned list. *)
Theorem returned_in_length_order (tokenizer : Tokenizer) (model : Model)
    (beam_width max_len : Z) (s : string)
    (log : list iteration) (out : list string) :
  generator tokenizer model beam_width max_len (Some s)
  = (log, Returned out) ->
  exists g stripped,
    beam_search tokenizer model beam_width max_len (S (Z.to_nat max_len)) s
    = (log, Returned g) /\
    strip_all tokenizer g = inr stripped /\
    out = convert_ids_to_sentences tokenizer stripped /\
    StronglySorted le (map (@length nat) g).
Proof.
  intros Hrun. unfold generator in Hrun.
  apply generator_fuel_returned in Hrun.
  destruct Hrun as (s' & g & stripped & Hs & _ & Hsearch & Hstrip & ->).
  injection Hs as <-. exists g, stripped. repeat split; auto.
  unfold beam_search, convert_sentences_to_ids in Hsearch.
  simpl map in Hsearch. eapply generate_loop_result_order, Hsearch.
Qed.

Lemma returned_in_length_order_witness :
  exists g stripped,
    beam_search char_tokenizer skewed_model 2 2 (S (Z.to_nat 2)) "a"%string
    = ([iterate char_tokenizer skewed_model 2 [[2]] [0%R]], Returned g) /\
    strip_all char_tokenizer g = inr stripped /\
    ["ab"%string; "aa"%string]
    = convert_ids_to_sentences char_tokenizer stripped /\
    StronglySorted le (map (@length nat) g).
Proof.
  apply (@returned_in_length_order char_tokenizer skewed_model 2 2
           "a"%string [iterate char_tokenizer skewed_model 2 [[2]] [0%R]]
           ["ab"%string; "aa"%string]).
  exact two_beams_run.
Defined.

(** ** More beams than vocabulary ids *)

(** X11.  When [beam_width] exceeds the size of the vocabulary (no
    probability being negative), a seed that is decoded further makes the
    decoder raise [TypeError] in its first pass: the buffer of the seed
    keeps a sentinel, which the selection reads once the ids of the
    vocabulary are used up, and [torch.log] does not accept its Python
    int. *)
Theorem wide_beam_raises (tokenizer : Tokenizer) (model : Model)
    (beam_width max_len : Z) (s : string) :
  non_negative tokenizer model ->
  (Z.of_nat (vocab_size tokenizer) < beam_width)%Z ->
  String.length s <> 0 ->
  active_cond tokenizer max_len (encode tokenizer s) ->
  generator tokenizer model beam_width max_len (Some s)
  = ([iterate tokenizer model beam_width [encode tokenizer s] [0%R]],
     Raised TypeError).
Proof.
  intros Hpos Hbw Hs Hact. apply Nat.eqb_neq in Hs.
  unfold generator, generator_fuel, beam_search, convert_sentences_to_ids.
  rewrite Hs. simpl map.
  rewrite generate_loop_first_raises by assumption. reflexivity.
Qed.

Lemma wide_beam_raises_witness :
  generator char_tokenizer skewed_model 6 4 (Some "ab"%string)
  = ([iterate char_tokenizer skewed_model 6 [[2; 3]] [0%R]],
     Raised TypeError).
Proof.
  apply (@wide_beam_raises char_tokenizer skewed_model 6 4 "ab"%string);
    [exact skewed_non_negative|simpl; lia|simpl; lia|].
  exists 3. split; [reflexivity|]. split; [discriminate|simpl; lia].
Defined.
